(** * FARFS: a read-only FUSE file system over a FAR archive (farfs.c)

    A shallow embedding of the archive decoding and path resolution engine
    of [farfs.c], and the properties of its six FUSE operations.

    Platform: Linux on a little-endian LP64 host, so [le32_to_cpu] is the
    identity (first branch of the [#if]), [size_t], [off_t], [ino_t] and
    [nlink_t] are 64 bits wide and [int] is 32 bits wide. *)

From Stdlib Require Import ZArith List Bool Lia.
From Stdlib Require String.
From coqutil Require Import Byte Word.LittleEndianList.
From Equations Require Import Equations.
Import ListNotations.

Local Open Scope Z_scope.

(** ** Outcomes of running C code *)

(** A C function either returns ([Done]), calls [abort()] ([Abort]), or
    runs into undefined behaviour ([Fault]): a read outside the mapping or
    the use of a handle that is not live. *)
Inductive result (A : Type) : Type :=
| Done (a : A)
| Abort
| Fault.

Arguments Done {A} a.
Arguments Abort {A}.
Arguments Fault {A}.

Definition bind {A B : Type} (r : result A) (k : A -> result B) : result B :=
  match r with
  | Done a => k a
  | Abort => Abort
  | Fault => Fault
  end.

Notation "x <- r ;; k" := (bind r (fun x => k))
  (at level 61, r at next level, right associativity).

(** ** Constants of the system headers

    The values that [errno.h], [fcntl.h] and [sys/stat.h] give these names
    on Linux. *)

Module Linux.
Definition ENOENT : Z := 2.
Definition ENOMEM : Z := 12.
Definition EACCES : Z := 13.
Definition ENOTDIR : Z := 20.
Definition EINVAL : Z := 22.
Definition EROFS : Z := 30.

Definition O_RDONLY : Z := 0.
Definition O_WRONLY : Z := 1.
Definition O_RDWR : Z := 2.
Definition O_ACCMODE : Z := 3.
Definition O_CREAT : Z := 64.

Definition S_IFDIR : Z := 16384.
Definition S_IFREG : Z := 32768.
Definition S_IRUSR : Z := 256.
Definition S_IXUSR : Z := 64.
Definition S_IRGRP : Z := 32.
Definition S_IXGRP : Z := 8.
Definition S_IROTH : Z := 4.
Definition S_IXOTH : Z := 1.
End Linux.
Import Linux.

(** Wrap-around of the 64-bit unsigned types and the conversion to [int]. *)
Definition wrap64 (z : Z) : Z := z mod 2 ^ 64.
Definition to_int (z : Z) : Z := (z + 2 ^ 31) mod 2 ^ 32 - 2 ^ 31.

(** ** Data model *)

Definition FAR_FILE_TYPE : Z := 0.
Definition FAR_DIR_TYPE : Z := 1.

Definition lor_all (l : list Z) : Z := fold_right Z.lor 0 l.

Definition FAR_DIR_MODE : Z :=
  lor_all [S_IRUSR; S_IXUSR; S_IRGRP; S_IXGRP; S_IROTH; S_IXOTH; S_IFDIR].
Definition FAR_FILE_MODE : Z :=
  lor_all [S_IRUSR; S_IRGRP; S_IROTH; S_IFREG].

(** [sizeof(FARentry_t)] and [offsetof(FARheader_t, rootdir)]. *)
Definition sizeof_FARentry_t : Z := 16.
Definition offsetof_rootdir : Z := 20.

Record FARentry_t : Type := {
  flags : Z;
  nameoff : Z;
  dataoff : Z;
  size : Z
}.

(** A [const FARentry_t *]: either [&dummy_root], which lives in the data
    segment of the process, or an address inside the mapping, given as its
    byte offset from [far_mapping]. *)
Inductive entry_ptr : Type :=
| root
| mapped (off : Z).

Record far_dir_t : Type := {
  parent : entry_ptr;
  entry : entry_ptr
}.

(** The process state: the globals of [farfs.c], the identity of the
    process ([getuid], [getgid]) and the [malloc] heap holding the open
    directory handles.  A handle's address is its index in [heap]; a freed
    block is [None].  [heap_limit] bounds the number of blocks [malloc]
    hands out before it returns [NULL]. *)
Record world : Type := {
  far_mapping : list byte;
  dummy_root : FARentry_t;
  far_atime : Z;
  far_mtime : Z;
  far_ctime : Z;
  uid : Z;
  gid : Z;
  heap : list (option far_dir_t);
  heap_limit : nat
}.

(** ** Reading the mapping *)

Definition mapping_size (w : world) : Z := Z.of_nat (length (far_mapping w)).

(** [n] bytes at offset [a]; a read of no bytes touches nothing. *)
Definition load_bytes (w : world) (a n : Z) : result (list byte) :=
  if n <=? 0 then Done []
  else if (0 <=? a) && (a + n <=? mapping_size w)
       then Done (firstn (Z.to_nat n) (skipn (Z.to_nat a) (far_mapping w)))
       else Fault.

Definition load32 (w : world) (a : Z) : result Z :=
  bs <- load_bytes w a 4 ;; Done (le_combine bs).

Definition le32_to_cpu (x : Z) : Z := x.

(** The bytes from offset [a] on, for the string functions. *)
Definition mem_from (w : world) (a : Z) : list byte :=
  if 0 <=? a then skipn (Z.to_nat a) (far_mapping w) else [].

Definition NUL : byte := Byte.x00.
Definition slash : byte := Byte.x2f.

(** [strlen] of a string in the mapping. *)
Fixpoint strlen (mem : list byte) : result Z :=
  match mem with
  | [] => Fault
  | b :: mem' => if Byte.eqb b NUL then Done 0
                 else n <- strlen mem' ;; Done (n + 1)
  end.

(** [memcmp(a, b, n) == 0] *)
Definition memcmp_eq (a : list byte) (mem : list byte) (n : nat) : bool :=
  if list_eq_dec Byte.byte_eq_dec (firstn n a) (firstn n mem) then true else false.

(** [strcmp(s, m) == 0] for a string [s] (given by its bytes before the
    terminating NUL) and a string in the mapping; the comparison stops at
    the first difference. *)
Fixpoint strcmp_eq (s : list byte) (mem : list byte) : result bool :=
  match mem with
  | [] => Fault
  | m :: mem' =>
      match s with
      | [] => Done (Byte.eqb m NUL)
      | c :: s' => if Byte.eqb c m then
                     if Byte.eqb c NUL then Done true else strcmp_eq s' mem'
                   else Done false
      end
  end.

(** [strchr(s, '/')]: the bytes before the first slash and the bytes after
    it, or [None] for [NULL].  A NUL byte inside the list ends the string,
    as it does in C. *)
Fixpoint strchr_slash (s : list byte) : option (list byte * list byte) :=
  match s with
  | [] => None
  | c :: s' => if Byte.eqb c slash then Some ([], s')
               else if Byte.eqb c NUL then None
               else match strchr_slash s' with
                    | Some (comp, rest) => Some (c :: comp, rest)
                    | None => None
                    end
  end.

(** ** Entry accessors *)

Definition entry_field (w : world) (e : entry_ptr)
    (proj : FARentry_t -> Z) (field_off : Z) : result Z :=
  match e with
  | root => Done (proj (dummy_root w))
  | mapped a => load32 w (a + field_off)
  end.

Definition far_type (w : world) (e : entry_ptr) : result Z :=
  f <- entry_field w e flags 0 ;; Done (Z.land (le32_to_cpu f) 255).

Definition far_name (w : world) (e : entry_ptr) : result Z :=
  n <- entry_field w e nameoff 4 ;; Done (le32_to_cpu n).

Definition far_data (w : world) (e : entry_ptr) : result Z :=
  d <- entry_field w e dataoff 8 ;; Done (le32_to_cpu d).

Definition far_datasize (w : world) (e : entry_ptr) : result Z :=
  s <- entry_field w e size 12 ;; Done (le32_to_cpu s).

Definition far_children (w : world) (e : entry_ptr) : result Z :=
  t <- far_type w e ;;
  if negb (t =? FAR_DIR_TYPE) then Abort else far_data w e.

(** [children + i] *)
Definition child_at (children i : Z) : entry_ptr :=
  mapped (children + sizeof_FARentry_t * i).

(** ** Path resolution *)

(** The [for] loop over the children of [dir] for an intermediate
    component [comp]; [k] counts the iterations left, [i] is the index. *)
Fixpoint match_component (w : world) (dir : entry_ptr) (comp : list byte)
    (i : Z) (k : nat) : result (option entry_ptr) :=
  match k with
  | O => Done None
  | S k' =>
      children <- far_children w dir ;;
      let entry := child_at children i in
      name <- far_name w entry ;;
      len <- strlen (mem_from w name) ;;
      if (len =? Z.of_nat (length comp))
         && memcmp_eq comp (mem_from w name) (length comp)
      then Done (Some entry)
      else match_component w dir comp (i + 1) k'
  end.

(** The [for] loop for the final component. *)
Fixpoint match_final (w : world) (dir : entry_ptr) (path : list byte)
    (i : Z) (k : nat) : result (option entry_ptr) :=
  match k with
  | O => Done None
  | S k' =>
      children <- far_children w dir ;;
      let entry := child_at children i in
      name <- far_name w entry ;;
      eq <- strcmp_eq path (mem_from w name) ;;
      if eq then Done (Some entry)
      else match_final w dir path (i + 1) k'
  end.

Definition inspect {A : Type} (a : A) : {b : A | a = b} := exist _ a eq_refl.

(** The [while(p != NULL)] loop: returns the final component together with
    [*parent] and [dir]. *)
Equations? traverse_loop (w : world) (path : list byte)
    (parent dir : entry_ptr) : result (list byte * entry_ptr * entry_ptr)
    by wf (length path) lt :=
  traverse_loop w path parent dir with inspect (strchr_slash path) := {
    | exist _ None _ => Done (path, parent, dir)
    | exist _ (Some (comp, rest)) Hp =>
        num_subdirs <- far_datasize w dir ;;
        found <- match_component w dir comp 0 (Z.to_nat num_subdirs) ;;
        match found with
        | Some entry => traverse_loop w rest dir entry
        | None => traverse_loop w rest parent dir
        end }.
Proof.
  all: clear - Hp; revert comp Hp;
    induction path as [|c s IH]; intros comp; simpl; [discriminate|];
    destruct (Byte.eqb c slash); [intros [= _ <-]; lia|];
    destruct (Byte.eqb c NUL); [discriminate|];
    destruct (strchr_slash s) as [[comp' rest']|]; [|discriminate];
    intros [= _ <-]; specialize (IH _ eq_refl); lia.
Defined.

(** The part of [far_traverse_path] after the loop: the lookup of the
    final component. *)
Definition final_lookup (w : world)
    (r : list byte * entry_ptr * entry_ptr)
    : result (option entry_ptr * entry_ptr) :=
  let '(path2, parent, dir) := r in
  num_subdirs <- far_datasize w dir ;;
  found <- match_final w dir path2 0 (Z.to_nat num_subdirs) ;;
  Done (found, parent).

(** The bytes of a C string before its terminating NUL. *)
Fixpoint c_str (s : list byte) : list byte :=
  match s with
  | [] => []
  | c :: s' => if Byte.eqb c NUL then [] else c :: c_str s'
  end.

Definition bytes_eqb (a b : list byte) : bool :=
  if list_eq_dec Byte.byte_eq_dec a b then true else false.

(** [far_traverse_path]: the returned entry ([None] for [NULL]) and the
    value left in [*parent].  [++path] on the empty string steps over its
    terminator, so the empty path is a [Fault]. *)
Definition far_traverse_path (w : world) (path : list byte)
    : result (option entry_ptr * entry_ptr) :=
  let dir := root in
  if bytes_eqb (c_str path) [slash] then Done (Some dir, dir)
  else
    match c_str path with
    | [] => Fault
    | _ :: path1 =>
        r <- traverse_loop w path1 dir dir ;; final_lookup w r
    end.

(** ** Attributes *)

Record stat : Type := {
  st_dev : Z;
  st_ino : Z;
  st_nlink : Z;
  st_uid : Z;
  st_gid : Z;
  st_rdev : Z;
  st_size : Z;
  st_blksize : Z;
  st_blocks : Z;
  st_atime : Z;
  st_mtime : Z;
  st_ctime : Z;
  st_mode : Z
}.

(** The loop of [far_fill_stat] over the children; [st_nlink] is at most
    [2 + 2^32], so the 64-bit [nlink_t] does not overflow. *)
Fixpoint count_links (w : world) (children : Z) (i : Z) (k : nat)
    (nlink : Z) : result Z :=
  match k with
  | O => Done nlink
  | S k' =>
      t <- far_type w (child_at children i) ;;
      count_links w children (i + 1) k'
        (if t =? FAR_DIR_TYPE then nlink + 1 else nlink)
  end.

(** [entry - header->rootdir]: the byte distance divided by the size of an
    entry, an arithmetic shift in the compiled code. *)
Definition entry_index (off : Z) : Z :=
  Z.shiftr (off - offsetof_rootdir) 4.

Definition far_fill_stat (w : world) (e : entry_ptr) : result stat :=
  let ino := match e with
             | root => 1
             | mapped off => wrap64 (entry_index off + 2)
             end in
  t <- far_type w e ;;
  nlink <- (if t =? FAR_DIR_TYPE then
              num_children <- far_datasize w e ;;
              children <- far_children w e ;;
              count_links w children 0 (Z.to_nat num_children) 2
            else Done 1) ;;
  t1 <- far_type w e ;;
  sz <- (if t1 =? FAR_DIR_TYPE then
           n <- far_datasize w e ;; Done (n * sizeof_FARentry_t)
         else far_datasize w e) ;;
  let blksize := 4096 in
  t2 <- far_type w e ;;
  Done {| st_dev := 0;
          st_ino := ino;
          st_nlink := nlink;
          st_uid := uid w;
          st_gid := gid w;
          st_rdev := 0;
          st_size := sz;
          st_blksize := blksize;
          st_blocks := Z.quot (sz + blksize - 1) 512;
          st_atime := far_atime w;
          st_mtime := far_mtime w;
          st_ctime := far_ctime w;
          st_mode := if t2 =? FAR_DIR_TYPE then FAR_DIR_MODE
                     else FAR_FILE_MODE |}.

(** ** The FUSE operations *)

(** [fi->fh]: an integer holding a pointer, either to an entry (set by
    [far_open]) or to a [far_dir_t] on the heap (set by [far_opendir]). *)
Inductive fh_t : Type :=
| fh_null
| fh_entry (e : entry_ptr)
| fh_dir (addr : nat).

Record fuse_file_info : Type := {
  fi_flags : Z;
  fh : fh_t;
  keep_cache : Z
}.

(** An operation runs in a process state and leaves one behind. *)
Definition op (A : Type) : Type := world -> result (A * world).

Definition set_heap (w : world) (h : list (option far_dir_t)) : world :=
  {| far_mapping := far_mapping w;
     dummy_root := dummy_root w;
     far_atime := far_atime w;
     far_mtime := far_mtime w;
     far_ctime := far_ctime w;
     uid := uid w;
     gid := gid w;
     heap := h;
     heap_limit := heap_limit w |}.

(** [far_dir_new]: the address of the new handle, [None] for [NULL]. *)
Definition far_dir_new (parent entry : entry_ptr) (w : world)
    : option nat * world :=
  if (length (heap w) <? heap_limit w)%nat
  then (Some (length (heap w)),
        set_heap w (heap w ++ [Some {| parent := parent; entry := entry |}]))
  else (None, w).

Definition deref_dir (w : world) (h : fh_t) : result far_dir_t :=
  match h with
  | fh_dir a => match nth_error (heap w) a with
                | Some (Some d) => Done d
                | _ => Fault
                end
  | _ => Fault
  end.

Definition far_getattr (path : list byte) (st : stat) : op (Z * stat) :=
  fun w =>
    r <- far_traverse_path w path ;;
    match fst r with
    | None => Done (- ENOENT, st, w)
    | Some entry => st' <- far_fill_stat w entry ;; Done (0, st', w)
    end.

(** A string in the mapping, as the filler reads it. *)
Fixpoint read_c_str (mem : list byte) : result (list byte) :=
  match mem with
  | [] => Fault
  | b :: mem' => if Byte.eqb b NUL then Done []
                 else s <- read_c_str mem' ;; Done (b :: s)
  end.

Definition dot : list byte := [Byte.x2e].
Definition dotdot : list byte := [Byte.x2e; Byte.x2e].

Section Readdir.

(** The buffer of the dispatch layer and its [fuse_fill_dir_t] callback
    [filler(buffer, name, &st, off)], which returns the new buffer and
    whether it is full (a non-zero return). *)
Variable Buf : Type.
Variable filler : Buf -> list byte -> stat -> Z -> Buf * bool.

(** The [for(off = 2; off-2 < far_datasize(dir->entry); ++off)] loop,
    with [k] iterations left. *)
Fixpoint readdir_loop (w : world) (dir_entry : entry_ptr) (off : Z)
    (k : nat) (offset : Z) (buffer : Buf) : result Buf :=
  match k with
  | O => Done buffer
  | S k' =>
      if off =? offset then
        children <- far_children w dir_entry ;;
        let child := child_at children (off - 2) in
        st <- far_fill_stat w child ;;
        name <- far_name w child ;;
        s <- read_c_str (mem_from w name) ;;
        let (buffer', full) := filler buffer s st (offset + 1) in
        if full then Done buffer'
        else readdir_loop w dir_entry (off + 1) k' (offset + 1) buffer'
      else readdir_loop w dir_entry (off + 1) k' offset buffer
  end.

Definition far_readdir (buffer : Buf) (offset : Z) (fi : fuse_file_info)
    : op (Z * Buf) :=
  fun w =>
    dir <- deref_dir w (fh fi) ;;
    s0 <- (if offset =? 0 then
             st <- far_fill_stat w (entry dir) ;;
             let (b, full) := filler buffer dot st (offset + 1) in
             Done (b, full, offset + 1)
           else Done (buffer, false, offset)) ;;
    let '(buffer0, full0, offset0) := s0 in
    if (full0 : bool) then Done (0, buffer0, w)
    else
      s1 <- (if offset0 =? 1 then
               st <- far_fill_stat w (parent dir) ;;
               let (b, full) := filler buffer0 dotdot st (offset0 + 1) in
               Done (b, full, offset0 + 1)
             else Done (buffer0, false, offset0)) ;;
      let '(buffer1, full1, offset1) := s1 in
      if (full1 : bool) then Done (0, buffer1, w)
      else
        n <- far_datasize w (entry dir) ;;
        b <- readdir_loop w (entry dir) 2 (Z.to_nat n) offset1 buffer1 ;;
        Done (0, b, w).

End Readdir.

Definition far_open (path : list byte) (fi : fuse_file_info)
    : op (Z * fuse_file_info) :=
  fun w =>
    r <- far_traverse_path w path ;;
    match fst r with
    | None =>
        if negb (Z.land (fi_flags fi) O_CREAT =? 0) then Done (- EROFS, fi, w)
        else Done (- ENOENT, fi, w)
    | Some entry =>
        if Z.land (fi_flags fi) O_ACCMODE =? O_RDWR then Done (- EACCES, fi, w)
        else if Z.land (fi_flags fi) O_ACCMODE =? O_WRONLY
        then Done (- EACCES, fi, w)
        else Done (0, {| fi_flags := fi_flags fi;
                         fh := fh_entry entry;
                         keep_cache := 0 |}, w)
    end.

(** [far_read]: the return value and the bytes that [memcpy] stored at the
    start of [buffer].  [size] is a [size_t], [offset] an [off_t]; their
    sum is computed in the unsigned 64-bit type and the copied length is
    returned as an [int]. *)
Definition far_read (size : Z) (offset : Z) (fi : fuse_file_info)
    : op (Z * list byte) :=
  fun w =>
    if offset <? 0 then Done (- EINVAL, [], w)
    else
      match fh fi with
      | fh_entry entry =>
          dsz <- far_datasize w entry ;;
          if offset >=? dsz then Done (0, [], w)
          else
            let size' := if wrap64 (offset + size) >? dsz
                         then wrap64 (dsz - offset) else size in
            d <- far_data w entry ;;
            bs <- load_bytes w (d + offset) size' ;;
            Done (to_int size', bs, w)
      | _ => Fault
      end.

Definition far_opendir (path : list byte) (fi : fuse_file_info)
    : op (Z * fuse_file_info) :=
  fun w =>
    r <- far_traverse_path w path ;;
    let '(found, parent) := r in
    match found with
    | None => Done (- ENOENT, fi, w)
    | Some entry =>
        t <- far_type w entry ;;
        if negb (t =? FAR_DIR_TYPE) then Done (- ENOTDIR, fi, w)
        else
          match far_dir_new parent entry w with
          | (None, w') => Done (- ENOMEM, fi, w')
          | (Some a, w') =>
              Done (0, {| fi_flags := fi_flags fi;
                          fh := fh_dir a;
                          keep_cache := keep_cache fi |}, w')
          end
    end.

Fixpoint set_nth {A : Type} (l : list A) (n : nat) (x : A) : list A :=
  match l, n with
  | [], _ => []
  | _ :: l', O => x :: l'
  | y :: l', S n' => y :: set_nth l' n' x
  end.

(** [free(dir)]; [free(NULL)] does nothing, freeing anything but a live
    block is undefined. *)
Definition far_releasedir (fi : fuse_file_info) : op Z :=
  fun w =>
    match fh fi with
    | fh_null => Done (0, w)
    | fh_dir a =>
        match nth_error (heap w) a with
        | Some (Some _) => Done (0, set_heap w (set_nth (heap w) a None))
        | _ => Fault
        end
    | fh_entry _ => Fault
    end.

(** ** Start-up *)

Definition MAGIC (a b c d : Z) : Z :=
  Z.lor a (Z.lor (Z.shiftl b 8) (Z.lor (Z.shiftl c 16) (Z.shiftl d 24))).

(** ['F'], ['A'], ['R'], ['\0'] *)
Definition FAR_MAGIC : Z := MAGIC 70 65 82 0.

Definition dummy_root_init : FARentry_t :=
  {| flags := FAR_DIR_TYPE;
     nameoff := 0;
     dataoff := offsetof_rootdir;
     size := 0 |}.

Definition set_root_size (w : world) (n : Z) : world :=
  {| far_mapping := far_mapping w;
     dummy_root := {| flags := flags (dummy_root w);
                      nameoff := nameoff (dummy_root w);
                      dataoff := dataoff (dummy_root w);
                      size := n |};
     far_atime := far_atime w;
     far_mtime := far_mtime w;
     far_ctime := far_ctime w;
     uid := uid w;
     gid := gid w;
     heap := heap w;
     heap_limit := heap_limit w |}.

(** The state after [mmap]: the image is mapped, the time stamps of the
    archive file are stored and nothing is allocated. *)
Definition mapped_world (image : list byte) (atime mtime ctime : Z)
    (uid gid : Z) (limit : nat) : world :=
  {| far_mapping := image;
     dummy_root := dummy_root_init;
     far_atime := atime;
     far_mtime := mtime;
     far_ctime := ctime;
     uid := uid;
     gid := gid;
     heap := [];
     heap_limit := limit |}.

(** Offsets of the fields of [FARheader_t] that [main] reads. *)
Definition offsetof_magic : Z := 0.
Definition offsetof_version : Z := 4.
Definition offsetof_rootentries : Z := 16.

(** [main] from [mmap] up to the call of [fuse_main]: the checks on the
    header and [root->size = header->rootentries].  The result is the
    state in which the operations run; [None] is [EXIT_FAILURE]. *)
Definition main (image : list byte) (atime mtime ctime : Z)
    (uid gid : Z) (limit : nat) : result (option world) :=
  let w := mapped_world image atime mtime ctime uid gid limit in
  magic <- load32 w offsetof_magic ;;
  if negb (le32_to_cpu magic =? FAR_MAGIC) then Done None
  else
    version <- load32 w offsetof_version ;;
    if negb (le32_to_cpu version =? 0) then Done None
    else
      rootentries <- load32 w offsetof_rootentries ;;
      Done (Some (set_root_size w rootentries)).

(** ** Specification-side definitions *)

(** The bytes of the archive image in [[a, a + n)]. *)
Definition image_bytes (w : world) (a n : Z) : list byte :=
  firstn (Z.to_nat n) (skipn (Z.to_nat a) (far_mapping w)).

(** The names of the [k] children of a directory from index [i] on. *)
Fixpoint child_names (w : world) (dir : entry_ptr) (i : Z) (k : nat)
    : result (list (list byte)) :=
  match k with
  | O => Done []
  | S k' =>
      children <- far_children w dir ;;
      name <- far_name w (child_at children i) ;;
      s <- read_c_str (mem_from w name) ;;
      rest <- child_names w dir (i + 1) k' ;;
      Done (s :: rest)
  end.

(** The types of the [k] children from index [i] on, in stored order. *)
Fixpoint child_types (w : world) (children : Z) (i : Z) (k : nat)
    : result (list Z) :=
  match k with
  | O => Done []
  | S k' =>
      t <- far_type w (child_at children i) ;;
      ts <- child_types w children (i + 1) k' ;;
      Done (t :: ts)
  end.

(** The number of directories among a list of entry types. *)
Definition count_dirs (tys : list Z) : Z :=
  Z.of_nat (length (filter (fun t => t =? FAR_DIR_TYPE) tys)).

(** [&header->rootdir[k]]: the entry with index [k] in the global entry
    table, which starts right after the header. *)
Definition table_entry (k : Z) : entry_ptr :=
  mapped (offsetof_rootdir + sizeof_FARentry_t * k).

(** The entries that have an inode number: the virtual root and the
    entries of the global table. *)
Definition in_table (e : entry_ptr) : Prop :=
  e = root \/ exists k, 0 <= k < 2 ^ 64 - 2 /\ e = table_entry k.

(** The access mode requested by an open call. *)
Definition accmode (fi : fuse_file_info) : Z :=
  Z.land (fi_flags fi) O_ACCMODE.

(** The archive as the operations see it: the image with its header,
    entry records, names and data, the fields of the dummy root, and the
    time stamps taken at start-up. *)
Definition archive_state (w : world)
    : list byte * FARentry_t * (Z * Z * Z) :=
  (far_mapping w, dummy_root w, (far_atime w, far_mtime w, far_ctime w)).

(** [fi] after a successful [far_open] that found [e]. *)
Definition opened (fi : fuse_file_info) (e : entry_ptr) : fuse_file_info :=
  {| fi_flags := fi_flags fi; fh := fh_entry e; keep_cache := 0 |}.

(** The names and attributes of the [k] children of a directory from
    index [i] on, in stored order. *)
Fixpoint child_listing (w : world) (dir_entry : entry_ptr) (i : Z) (k : nat)
    : result (list (list byte * stat)) :=
  match k with
  | O => Done []
  | S k' =>
      children <- far_children w dir_entry ;;
      let child := child_at children i in
      st <- far_fill_stat w child ;;
      name <- far_name w child ;;
      s <- read_c_str (mem_from w name) ;;
      rest <- child_listing w dir_entry (i + 1) k' ;;
      Done ((s, st) :: rest)
  end.

(** A directory entry as the filler receives it: name, attributes and the
    cursor of the entry after it. *)
Definition dirent : Type := list byte * stat * Z.

(** The entries of a listing that starts at [cursor]: each one carries the
    cursor of its successor. *)
Fixpoint with_cursors (items : list (list byte * stat)) (cursor : Z)
    : list dirent :=
  match items with
  | [] => []
  | (name, st) :: rest =>
      (name, st, cursor + 1) :: with_cursors rest (cursor + 1)
  end.

Section Feed.

Variable Buf : Type.
Variable filler : Buf -> list byte -> stat -> Z -> Buf * bool.

(** Hand the items to the filler one by one, the first with
    [cursor + 1], until the filler reports a full buffer. *)
Fixpoint feed (buffer : Buf) (items : list (list byte * stat))
    (cursor : Z) : Buf :=
  match items with
  | [] => buffer
  | (name, st) :: rest =>
      let (b, full) := filler buffer name st (cursor + 1) in
      if full then b else feed b rest (cursor + 1)
  end.

End Feed.

(** A filler of the dispatch layer: it records the entries it takes and
    has room for a given number of them; an entry offered to a full buffer
    is not taken. *)
Definition recording_filler (b : list dirent * nat) (name : list byte)
    (st : stat) (off : Z) : (list dirent * nat) * bool :=
  match snd b with
  | O => (b, true)
  | S room => ((fst b ++ [(name, st, off)], room), false)
  end.

(** The dispatch layer listing a directory in chunks: one [far_readdir]
    call per element of [caps], each with an empty buffer of that
    capacity; a call resumes at the cursor that came with the last entry
    taken so far. *)
Fixpoint list_directory (w : world) (fi : fuse_file_info) (caps : list nat)
    (cursor : Z) : result (list dirent) :=
  match caps with
  | [] => Done []
  | cap :: caps' =>
      r <- far_readdir (list dirent * nat) recording_filler ([], cap)
             cursor fi w ;;
      let got := fst (snd (fst r)) in
      rest <- list_directory w fi caps' (last (map snd got) cursor) ;;
      Done (got ++ rest)
  end.

(** ** Building archive images *)

Definition le32 (z : Z) : list byte := le_split 4 z.

Definition entry_record (flags nameoff dataoff size : Z) : list byte :=
  le32 flags ++ le32 nameoff ++ le32 dataoff ++ le32 size.

Definition header_record (nentries namesize rootentries : Z) : list byte :=
  le32 FAR_MAGIC ++ le32 0 ++ le32 nentries ++ le32 namesize
  ++ le32 rootentries.

Definition bytes_of (s : String.string) : list byte :=
  String.list_byte_of_string s.

Definition cstring (s : String.string) : list byte := bytes_of s ++ [NUL].

Import String.StringSyntax.
Delimit Scope string_scope with string.
Arguments bytes_of s%_string.
Arguments cstring s%_string.

(** The archive of the end-to-end scenario: the root holds the file
    [hello.txt] with payload [abcd] and the empty directory [sub]. *)
Definition hello_image : list byte :=
  header_record 2 14 2
  ++ entry_record FAR_FILE_TYPE 52 66 4
  ++ entry_record FAR_DIR_TYPE 62 70 0
  ++ cstring "hello.txt" ++ cstring "sub" ++ bytes_of "abcd".

(** An archive whose root holds the directory [d] with the children
    [d1] (directory), [f1] (file) and [d2] (directory). *)
Definition tree_image : list byte :=
  header_record 4 11 1
  ++ entry_record FAR_DIR_TYPE 84 36 3
  ++ entry_record FAR_DIR_TYPE 86 97 0
  ++ entry_record FAR_FILE_TYPE 89 95 2
  ++ entry_record FAR_DIR_TYPE 92 97 0
  ++ cstring "d" ++ cstring "d1" ++ cstring "f1" ++ cstring "d2"
  ++ bytes_of "xy".

(** The process state after a successful start on an image, for an
    archive file with the time stamps 10, 20 and 30, served by user and
    group 1000, with room for 8 directory handles. *)
Definition started (image : list byte) : world :=
  match main image 10 20 30 1000 1000 8 with
  | Done (Some w) => w
  | _ => mapped_world image 10 20 30 1000 1000 8
  end.

Definition hello_world : world := Eval vm_compute in started hello_image.
Definition tree_world : world := Eval vm_compute in started tree_image.

(** The state after [far_opendir] on [/d] in [tree_world], and the
    open-directory record it fills in. *)
Definition tree_dir_world : world :=
  set_heap tree_world [Some {| parent := root; entry := mapped 20 |}].

Definition tree_dir_fi : fuse_file_info :=
  {| fi_flags := O_RDONLY; fh := fh_dir 0; keep_cache := 0 |}.

(** The name of a directory entry. *)
Definition d_name (e : dirent) : list byte := fst (fst e).

(** A cleared [struct stat] and a [fuse_file_info] as the dispatch layer
    passes it to an open call. *)
Definition stat_zero : stat :=
  {| st_dev := 0; st_ino := 0; st_nlink := 0; st_uid := 0; st_gid := 0;
     st_rdev := 0; st_size := 0; st_blksize := 0; st_blocks := 0;
     st_atime := 0; st_mtime := 0; st_ctime := 0; st_mode := 0 |}.

Definition fi_of_flags (f : Z) : fuse_file_info :=
  {| fi_flags := f; fh := fh_null; keep_cache := 0 |}.

Definition fi_of_entry (e : entry_ptr) : fuse_file_info :=
  {| fi_flags := O_RDONLY; fh := fh_entry e; keep_cache := 0 |}.

(** ** Further definitions for the properties of the whole file *)

(** The write permission bits of [sys/stat.h]. *)
Definition S_IWUSR : Z := 128.
Definition S_IWGRP : Z := 16.
Definition S_IWOTH : Z := 2.

(** Every live directory handle refers to an entry that is a directory. *)
Definition handles_are_directories (w : world) : Prop :=
  forall a d, nth_error (heap w) a = Some (Some d) ->
              far_type w (entry d) = Done FAR_DIR_TYPE.

(** [FUSE_OPT_KEY_NONOPT] of [fuse_opt.h]. *)
Definition FUSE_OPT_KEY_NONOPT : Z := -2.

(** [far_process_arg]: the return value and the global [far_file] after
    the call, [None] being [NULL]. *)
Definition far_process_arg (arg : list byte) (key : Z)
    (far_file : option (list byte)) : Z * option (list byte) :=
  if key =? FUSE_OPT_KEY_NONOPT then
    match far_file with
    | None => (0, Some arg)
    | Some _ => (1, far_file)
    end
  else (1, far_file).

(** The option parser calling [far_process_arg] on the arguments in
    order, each with its key: the value of [far_file] at the end and the
    arguments kept (those for which the callback returned 1). *)
Fixpoint process_args (args : list (Z * list byte))
    (far_file : option (list byte))
    : option (list byte) * list (Z * list byte) :=
  match args with
  | [] => (far_file, [])
  | (key, arg) :: rest =>
      let (rc, far_file') := far_process_arg arg key far_file in
      let (final, kept) := process_args rest far_file' in
      (final, if rc =? 1 then (key, arg) :: kept else kept)
  end.

(** The first argument whose key is [FUSE_OPT_KEY_NONOPT], and the
    arguments without it. *)
Fixpoint first_nonopt (args : list (Z * list byte))
    : option (list byte) * list (Z * list byte) :=
  match args with
  | [] => (None, [])
  | (key, arg) :: rest =>
      if key =? FUSE_OPT_KEY_NONOPT then (Some arg, rest)
      else let (found, others) := first_nonopt rest in
           (found, (key, arg) :: others)
  end.

(** The bytes ['F'], ['A'], ['R'], ['\0'] and a version of 0. *)
Definition far_magic_bytes : list byte :=
  [Byte.x46; Byte.x41; Byte.x52; Byte.x00].
Definition version_0_bytes : list byte :=
  [Byte.x00; Byte.x00; Byte.x00; Byte.x00].

(** An image that holds the 16 bytes of an entry record at offset [a]. *)
Definition holds_entry (w : world) (a : Z) (flags nameoff dataoff size : Z)
    : Prop :=
  exists pre post,
    far_mapping w = pre ++ entry_record flags nameoff dataoff size ++ post
    /\ Z.of_nat (length pre) = a.

(** An archive whose root holds one file of [2^31] zero bytes, and the
    process state after start-up on it. *)
Definition big_image : list byte :=
  header_record 1 4 1
  ++ entry_record FAR_FILE_TYPE 0 36 (2 ^ 31)
  ++ repeat Byte.x00 (Z.to_nat (2 ^ 31)).

Definition big_world : world :=
  set_root_size (mapped_world big_image 10 20 30 1000 1000 8) 1.

(** * Properties *)

(** ** The archives used below *)

Example hello_world_loaded :
  main hello_image 10 20 30 1000 1000 8 = Done (Some hello_world).
Proof. vm_compute. reflexivity. Qed.

Example bad_version_rejected :
  main (le32 FAR_MAGIC ++ le32 1 ++ le32 0 ++ le32 0 ++ le32 0)
    10 20 30 1000 1000 8
  = Done None.
Proof. vm_compute. reflexivity. Qed.

Example tree_dir_opened :
  far_opendir (bytes_of "/d") (fi_of_flags O_RDONLY) tree_world
  = Done (0, tree_dir_fi, tree_dir_world).
Proof. vm_compute. reflexivity. Qed.

(** The end-to-end scenario: [/hello.txt] is a file of 4 bytes that reads
    as [abcd], [/sub] is an empty directory with link count 2,
    [/missing] is not found and a write-mode open of [/sub] is denied. *)
Example end_to_end :
  far_traverse_path hello_world (bytes_of "/hello.txt")
  = Done (Some (mapped 20), root)
  /\ far_datasize hello_world (mapped 20) = Done 4
  /\ far_read 4 0 (fi_of_entry (mapped 20)) hello_world
     = Done (4, bytes_of "abcd", hello_world)
  /\ far_traverse_path hello_world (bytes_of "/sub")
     = Done (Some (mapped 36), root)
  /\ far_type hello_world (mapped 36) = Done FAR_DIR_TYPE
  /\ far_datasize hello_world (mapped 36) = Done 0
  /\ (exists st, far_fill_stat hello_world (mapped 36) = Done st
                 /\ st_nlink st = 2)
  /\ far_getattr (bytes_of "/missing") stat_zero hello_world
     = Done (- ENOENT, stat_zero, hello_world)
  /\ far_open (bytes_of "/sub") (fi_of_flags O_WRONLY) hello_world
     = Done (- EACCES, fi_of_flags O_WRONLY, hello_world).
Proof.
  repeat split; try (vm_compute; reflexivity).
  eexists. split; vm_compute; reflexivity.
Qed.

(** ** The error monad *)


Lemma bind_inv {A B : Type} (r : result A) (k : A -> result B) (b : B) :
  bind r k = Done b -> exists a, r = Done a /\ k a = Done b.
Proof. destruct r as [a| |]; simpl; try discriminate. eauto. Qed.

Ltac inv_bind H :=
  let a := fresh "a" in
  let Ha := fresh "Ha" in
  apply bind_inv in H; destruct H as (a & Ha & H).

(** ** Start-up *)

(** After a successful start the image is the one that was mapped and the
    dummy root is a directory whose children are the [rootentries] records
    that follow the header. *)
Lemma main_started image atime mtime ctime uid gid limit w :
  main image atime mtime ctime uid gid limit = Done (Some w) ->
  far_mapping w = image
  /\ heap w = []
  /\ far_type w root = Done FAR_DIR_TYPE
  /\ far_data w root = Done offsetof_rootdir
  /\ far_datasize w root
     = load32 (mapped_world image atime mtime ctime uid gid limit)
         offsetof_rootentries.
Proof.
  unfold main. intros H. inv_bind H.
  destruct (negb _) in H; [discriminate|].
  inv_bind H. destruct (negb _) in H; [discriminate|].
  inv_bind H. injection H as <-. rewrite Ha1.
  repeat split.
Qed.

(** ** Path resolution *)

Lemma traverse_loop_eq w path parent dir :
  traverse_loop w path parent dir =
  match strchr_slash path with
  | None => Done (path, parent, dir)
  | Some (comp, rest) =>
      num_subdirs <- far_datasize w dir ;;
      found <- match_component w dir comp 0 (Z.to_nat num_subdirs) ;;
      match found with
      | Some entry => traverse_loop w rest dir entry
      | None => traverse_loop w rest parent dir
      end
  end.
Proof.
  rewrite traverse_loop_equation_1. unfold inspect.
  generalize (@eq_refl _ (strchr_slash path)).
  generalize (strchr_slash path) at 2 4 5.
  intros [[comp rest]|] e; simp traverse_loop; reflexivity.
Qed.

Lemma byte_eqb_false (a b : byte) : a <> b -> Byte.eqb a b = false.
Proof.
  intros H. destruct (Byte.eqb a b) eqn:E; [|reflexivity].
  apply Byte.byte_dec_bl in E. contradiction.
Qed.

Lemma c_str_app_slash comp rest :
  ~ In NUL comp ->
  c_str (comp ++ slash :: rest) = comp ++ slash :: c_str rest.
Proof.
  induction comp as [|c comp IH]; simpl; intros H.
  - reflexivity.
  - rewrite byte_eqb_false by (intros ->; apply H; now left).
    rewrite IH by (intros H'; apply H; now right). reflexivity.
Qed.

Lemma strchr_slash_app comp rest :
  ~ In slash comp -> ~ In NUL comp ->
  strchr_slash (comp ++ slash :: rest) = Some (comp, rest).
Proof.
  induction comp as [|c comp IH]; simpl; intros Hs Hn.
  - reflexivity.
  - rewrite byte_eqb_false by (intros ->; apply Hs; now left).
    rewrite byte_eqb_false by (intros ->; apply Hn; now left).
    rewrite IH; [reflexivity| |]; intros H'; [apply Hs|apply Hn]; now right.
Qed.

Lemma far_traverse_path_eq w c path1 :
  c_str (c :: path1) = c :: c_str path1 ->
  c_str path1 <> [] ->
  far_traverse_path w (c :: path1) =
  (r <- traverse_loop w (c_str path1) root root ;; final_lookup w r).
Proof.
  intros Hc Hne. unfold far_traverse_path. rewrite Hc.
  unfold bytes_eqb.
  destruct (list_eq_dec Byte.byte_eq_dec (c :: c_str path1) [slash]) as [E|E].
  - injection E as _ E. contradiction.
  - reflexivity.
Qed.

(** Once the walk stands on an entry that is not a directory and has a
    non-zero size, the next look at its children aborts, whatever is left
    of the path. *)
Lemma walk_in_file_aborts w path parent e t sz :
  far_type w e = Done t -> t <> FAR_DIR_TYPE ->
  far_datasize w e = Done sz -> 0 < sz ->
  (r <- traverse_loop w path parent e ;; final_lookup w r) = Abort.
Proof.
  intros Ht Hnd Hsz Hpos.
  assert (Hk : exists k, Z.to_nat sz = S k).
  { exists (Nat.pred (Z.to_nat sz)). lia. }
  destruct Hk as [k Hk].
  assert (Hc : far_children w e = Abort).
  { unfold far_children. rewrite Ht. simpl.
    destruct (t =? FAR_DIR_TYPE) eqn:E; [apply Z.eqb_eq in E; contradiction|].
    reflexivity. }
  rewrite traverse_loop_eq.
  destruct (strchr_slash path) as [[comp rest]|].
  - rewrite Hsz. simpl. rewrite Hk. simpl. rewrite Hc. reflexivity.
  - simpl. rewrite Hsz. simpl. rewrite Hk. simpl. rewrite Hc. reflexivity.
Qed.

Lemma strchr_slash_none s : ~ In slash s -> strchr_slash s = None.
Proof.
  induction s as [|c s IH]; simpl; intros H; [reflexivity|].
  rewrite byte_eqb_false by (intros ->; apply H; now left).
  destruct (Byte.eqb c NUL); [reflexivity|].
  rewrite IH by (intros H'; apply H; now right). reflexivity.
Qed.

Lemma c_str_idem s : c_str (c_str s) = c_str s.
Proof.
  induction s as [|c s IH]; simpl; [reflexivity|].
  destruct (Byte.eqb c NUL) eqn:E; simpl; [reflexivity|].
  rewrite E, IH. reflexivity.
Qed.

Lemma bytes_eqb_cons c a b : bytes_eqb (c :: a) (c :: b) = bytes_eqb a b.
Proof.
  unfold bytes_eqb.
  destruct (list_eq_dec Byte.byte_eq_dec a b) as [E|E];
    destruct (list_eq_dec Byte.byte_eq_dec (c :: a) (c :: b)) as [E'|E'];
    try reflexivity.
  - subst. contradiction.
  - injection E' as E'. contradiction.
Qed.

Lemma bytes_eqb_neq a b : a <> b -> bytes_eqb a b = false.
Proof.
  intros H. unfold bytes_eqb.
  destruct (list_eq_dec Byte.byte_eq_dec a b); [contradiction|reflexivity].
Qed.

(** [strcmp] against a terminated string of the mapping decides whether
    the two strings are equal. *)
Lemma strcmp_eq_spec mem : forall path s,
  read_c_str mem = Done s ->
  strcmp_eq path mem = Done (bytes_eqb (c_str path) s).
Proof.
  induction mem as [|m mem IH]; intros path s H; simpl in H; [discriminate|].
  destruct (Byte.eqb m NUL) eqn:Em.
  - injection H as <-. apply Byte.byte_dec_bl in Em. subst m.
    destruct path as [|c path]; simpl; [reflexivity|].
    destruct (Byte.eqb c NUL); reflexivity.
  - inv_bind H. injection H as <-.
    destruct path as [|c path]; simpl.
    + rewrite Em. reflexivity.
    + destruct (Byte.eqb c m) eqn:Ec.
      * apply Byte.byte_dec_bl in Ec. subst c. rewrite Em.
        rewrite (IH path a Ha), bytes_eqb_cons. reflexivity.
      * destruct (Byte.eqb c NUL).
        -- rewrite bytes_eqb_neq by discriminate. reflexivity.
        -- rewrite bytes_eqb_neq; [reflexivity|].
           intros [= -> _]. rewrite (Byte.byte_dec_lb eq_refl) in Ec.
           discriminate.
Qed.

(** When no child of the directory bears the name of the final
    component, the lookup gives [NULL]. *)
Lemma final_component_not_found w dir path k : forall i names,
  child_names w dir i k = Done names ->
  ~ In (c_str path) names ->
  match_final w dir path i k = Done None.
Proof.
  induction k as [|k IH]; intros i names H Hn; simpl in *; [reflexivity|].
  do 4 inv_bind H. injection H as <-.
  rewrite Ha. simpl. rewrite Ha0. simpl.
  rewrite (strcmp_eq_spec _ path a1 Ha1). simpl.
  rewrite bytes_eqb_neq by (intros E; apply Hn; left; congruence).
  apply (IH (i + 1) a2 Ha2). intros Hin. apply Hn. right. exact Hin.
Qed.

Lemma single_component_not_found w name n names :
  c_str name <> [] -> ~ In slash (c_str name) ->
  far_datasize w root = Done n ->
  child_names w root 0 (Z.to_nat n) = Done names ->
  ~ In (c_str name) names ->
  far_traverse_path w (slash :: name) = Done (None, root).
Proof.
  intros Hne Hs Hn Hc Hnot.
  rewrite far_traverse_path_eq by (reflexivity || assumption).
  rewrite traverse_loop_eq, strchr_slash_none by assumption.
  cbn [bind final_lookup]. rewrite Hn. cbn [bind].
  rewrite (final_component_not_found w root (c_str name) (Z.to_nat n) 0
             names Hc) by (rewrite c_str_idem; exact Hnot).
  reflexivity.
Qed.

(** An intermediate component that matches no child of the root is
    dropped from the path: the walk goes on from the root with what
    follows. *)
Lemma unmatched_component_is_dropped w comp rest n :
  ~ In slash comp -> ~ In NUL comp -> c_str rest <> [] ->
  far_datasize w root = Done n ->
  match_component w root comp 0 (Z.to_nat n) = Done None ->
  far_traverse_path w (slash :: comp ++ slash :: rest)
  = far_traverse_path w (slash :: rest).
Proof.
  intros Hs Hn Hr Hroot Hm.
  rewrite far_traverse_path_eq.
  - rewrite (far_traverse_path_eq w slash rest) by (reflexivity || assumption).
    rewrite c_str_app_slash by assumption.
    rewrite (traverse_loop_eq w (comp ++ slash :: c_str rest)).
    rewrite strchr_slash_app by assumption.
    rewrite Hroot. simpl. rewrite Hm. reflexivity.
  - reflexivity.
  - rewrite c_str_app_slash by assumption. destruct comp; discriminate.
Qed.

(** C1 (the code departs from the claim): an intermediate component that
    matches no child of the current directory does not make the resolution
    fail.  In the archive of the end-to-end scenario no child of the root
    is called [missing], yet [/missing/hello.txt] resolves, to the very
    entry that [/hello.txt] resolves to; the loop over the intermediate
    components leaves the current directory as it is when nothing
    matches.  A final component that matches nothing does give [NULL]. *)
Theorem unmatched_intermediate_component_is_skipped :
  match_component hello_world root (bytes_of "missing") 0 2 = Done None
  /\ far_traverse_path hello_world (bytes_of "/missing/hello.txt")
     = Done (Some (mapped 20), root)
  /\ far_traverse_path hello_world (bytes_of "/hello.txt")
     = Done (Some (mapped 20), root)
  /\ far_traverse_path hello_world (bytes_of "/missing")
     = Done (None, root).
Proof. repeat split; vm_compute; reflexivity. Qed.

(** C2: when the first component of a path names an entry of the root
    that is not a directory and has a non-zero size, and more of the path
    follows, the resolver descends into that entry and the next call of
    [far_children] on it aborts the process: [far_traverse_path], and with
    it [far_getattr], [far_open] and [far_opendir], return no error code. *)
Theorem file_component_aborts w comp rest n e t sz st fi :
  comp <> [] -> ~ In slash comp -> ~ In NUL comp ->
  far_datasize w root = Done n ->
  match_component w root comp 0 (Z.to_nat n) = Done (Some e) ->
  far_type w e = Done t -> t <> FAR_DIR_TYPE ->
  far_datasize w e = Done sz -> 0 < sz ->
  let path := slash :: comp ++ slash :: rest in
  far_traverse_path w path = Abort
  /\ far_getattr path st w = Abort
  /\ far_open path fi w = Abort
  /\ far_opendir path fi w = Abort.
Proof.
  intros Hne Hs Hn Hroot Hm Ht Hnd Hsz Hpos path.
  assert (Hp : far_traverse_path w path = Abort).
  { unfold path. rewrite far_traverse_path_eq.
    - rewrite c_str_app_slash by assumption.
      rewrite traverse_loop_eq, strchr_slash_app by assumption.
      rewrite Hroot. simpl. rewrite Hm. simpl.
      eapply walk_in_file_aborts; eassumption.
    - reflexivity.
    - rewrite c_str_app_slash by assumption.
      destruct comp; discriminate. }
  unfold far_getattr, far_open, far_opendir. rewrite Hp. auto.
Qed.

Lemma file_component_aborts_witness :
  far_traverse_path hello_world (bytes_of "/hello.txt/x") = Abort
  /\ far_getattr (bytes_of "/hello.txt/x") stat_zero hello_world = Abort
  /\ far_open (bytes_of "/hello.txt/x") (fi_of_flags O_RDONLY) hello_world
     = Abort
  /\ far_opendir (bytes_of "/hello.txt/x") (fi_of_flags O_RDONLY) hello_world
     = Abort.
Proof.
  apply (@file_component_aborts hello_world (bytes_of "hello.txt")
           (bytes_of "x") 2 (mapped 20) 0 4 stat_zero
           (fi_of_flags O_RDONLY)).
  - discriminate.
  - vm_compute. intuition discriminate.
  - vm_compute. intuition discriminate.
  - reflexivity.
  - vm_compute. reflexivity.
  - vm_compute. reflexivity.
  - discriminate.
  - vm_compute. reflexivity.
  - reflexivity.
Defined.

(** ** Reading *)

(** A 32-bit field read from the mapping is a [uint32_t]. *)
Lemma load32_range w a v : load32 w a = Done v -> 0 <= v < 2 ^ 32.
Proof.
  unfold load32, load_bytes. simpl.
  destruct ((0 <=? a) && (a + 4 <=? mapping_size w)) eqn:E;
    [|discriminate].
  apply andb_prop in E. destruct E as [E0 E1].
  apply Z.leb_le in E0, E1. unfold mapping_size in E1.
  simpl. intros [= <-].
  pose proof (le_combine_bound
                (firstn 4 (skipn (Z.to_nat a) (far_mapping w)))) as Hb.
  rewrite length_firstn, length_skipn in Hb.
  replace (Nat.min 4 (length (far_mapping w) - Z.to_nat a)) with 4%nat
    in Hb by lia.
  exact Hb.
Qed.

Lemma far_datasize_range w a n :
  far_datasize w (mapped a) = Done n -> 0 <= n < 2 ^ 32.
Proof.
  unfold far_datasize, entry_field. intros H. inv_bind H.
  injection H as <-. exact (load32_range w (a + 12) a0 Ha).
Qed.

Lemma wrap64_small z : 0 <= z < 2 ^ 64 -> wrap64 z = z.
Proof. intros H. unfold wrap64. apply Z.mod_small. exact H. Qed.

Lemma to_int_small z : 0 <= z < 2 ^ 31 -> to_int z = z.
Proof.
  intros H. unfold to_int.
  rewrite Z.mod_small by lia. lia.
Qed.

Lemma load_bytes_in_range w a n :
  0 <= a -> 0 <= n -> a + n <= mapping_size w ->
  load_bytes w a n = Done (image_bytes w a n).
Proof.
  intros Ha Hn Hb. unfold load_bytes, image_bytes.
  destruct (n <=? 0) eqn:E.
  - apply Z.leb_le in E. replace n with 0 by lia. reflexivity.
  - replace (0 <=? a) with true by (symmetry; apply Z.leb_le; lia).
    replace (a + n <=? mapping_size w) with true
      by (symmetry; apply Z.leb_le; lia).
    reflexivity.
Qed.

Lemma image_bytes_length w a n :
  0 <= a -> 0 <= n -> a + n <= mapping_size w ->
  Z.of_nat (length (image_bytes w a n)) = n.
Proof.
  intros Ha Hn Hb. unfold image_bytes, mapping_size in *.
  rewrite length_firstn, length_skipn. lia.
Qed.

(** A read inside an entry: the length is clamped to what is left of the
    entry, whatever the type of the entry. *)
Lemma far_read_range w fi e sz d size offset :
  fh fi = fh_entry e ->
  far_datasize w e = Done sz -> far_data w e = Done d ->
  0 <= d -> d + sz <= mapping_size w ->
  0 <= size -> offset + size < 2 ^ 64 ->
  Z.min size (sz - offset) < 2 ^ 31 ->
  0 <= offset < sz ->
  far_read size offset fi w
  = Done (Z.min size (sz - offset),
          image_bytes w (d + offset) (Z.min size (sz - offset)), w).
Proof.
  intros Hfh Hsz Hd Hd0 Hin Hs0 Hsum Hint Hoff.
  unfold far_read.
  replace (offset <? 0) with false by (symmetry; apply Z.ltb_ge; lia).
  rewrite Hfh, Hsz. simpl.
  rewrite Z.geb_leb.
  replace (sz <=? offset) with false by (symmetry; apply Z.leb_gt; lia).
  rewrite Hd. simpl.
  rewrite (@wrap64_small (offset + size)) by lia.
  rewrite Z.gtb_ltb.
  destruct (sz <? offset + size) eqn:E.
  - apply Z.ltb_lt in E.
    assert (Hm : Z.min size (sz - offset) = sz - offset) by lia.
    rewrite Hm in *.
    rewrite wrap64_small by lia.
    rewrite load_bytes_in_range by lia. simpl.
    rewrite to_int_small by lia. reflexivity.
  - apply Z.ltb_ge in E.
    assert (Hm : Z.min size (sz - offset) = size) by lia.
    rewrite Hm in *.
    rewrite load_bytes_in_range by lia. simpl.
    rewrite to_int_small by lia. reflexivity.
Qed.

Lemma far_read_negative w fi size offset :
  offset < 0 -> far_read size offset fi w = Done (- EINVAL, [], w).
Proof.
  intros H. unfold far_read.
  replace (offset <? 0) with true by (symmetry; apply Z.ltb_lt; lia).
  reflexivity.
Qed.

Lemma far_read_eof w fi e sz size offset :
  fh fi = fh_entry e -> far_datasize w e = Done sz ->
  0 <= offset -> sz <= offset ->
  far_read size offset fi w = Done (0, [], w).
Proof.
  intros Hfh Hsz H0 H. unfold far_read.
  replace (offset <? 0) with false by (symmetry; apply Z.ltb_ge; lia).
  rewrite Hfh, Hsz. simpl.
  rewrite Z.geb_leb.
  replace (sz <=? offset) with true by (symmetry; apply Z.leb_le; lia).
  reflexivity.
Qed.

(** C3 (amended): [far_read] on a handle to a file entry of size [sz]
    whose payload lies inside the image.  A negative offset gives
    [-EINVAL]; an offset of [sz] or more gives 0 bytes; otherwise, for
    every requested length [size] for which [offset + size] does not
    exceed the range of [size_t] and whose clamped value
    [min(size, sz - offset)] fits the [int] that the call returns, the
    call returns [min(size, sz - offset)] and copies that many bytes, the
    bytes of the image from [dataoff + offset] on.  In particular a read
    at [sz] is empty for every length, and a read of 10 bytes at [sz - 1]
    returns one byte. *)
Theorem far_read_spec w fi e sz d :
  fh fi = fh_entry e ->
  far_type w e = Done FAR_FILE_TYPE ->
  far_datasize w e = Done sz -> far_data w e = Done d ->
  0 <= sz < 2 ^ 32 -> 0 <= d -> d + sz <= mapping_size w ->
  (forall size offset,
      offset < 0 -> far_read size offset fi w = Done (- EINVAL, [], w))
  /\ (forall size offset,
        sz <= offset -> far_read size offset fi w = Done (0, [], w))
  /\ (forall size offset,
        0 <= offset < sz -> 0 <= size -> offset + size < 2 ^ 64 ->
        Z.min size (sz - offset) < 2 ^ 31 ->
        let n := Z.min size (sz - offset) in
        far_read size offset fi w = Done (n, image_bytes w (d + offset) n, w)
        /\ Z.of_nat (length (image_bytes w (d + offset) n)) = n)
  /\ (forall N, far_read N sz fi w = Done (0, [], w))
  /\ (0 < sz ->
      far_read 10 (sz - 1) fi w = Done (1, image_bytes w (d + sz - 1) 1, w)
      /\ length (image_bytes w (d + sz - 1) 1) = 1%nat).
Proof.
  intros Hfh _ Hsz Hd Hsz0 Hd0 Hin.
  split; [|split; [|split; [|split]]].
  - intros size offset. apply far_read_negative.
  - intros size offset H. apply (far_read_eof w fi e sz); auto; lia.
  - intros size offset Hoff Hs Hsum Hint n. split.
    + apply (far_read_range w fi e sz d); auto; lia.
    + apply image_bytes_length; lia.
  - intros N. apply (far_read_eof w fi e sz); auto; lia.
  - intros Hpos.
    assert (H1 : far_read 10 (sz - 1) fi w
                 = Done (Z.min 10 (sz - (sz - 1)),
                         image_bytes w (d + (sz - 1))
                           (Z.min 10 (sz - (sz - 1))), w))
      by (apply (far_read_range w fi e sz d); auto; lia).
    replace (Z.min 10 (sz - (sz - 1))) with 1 in H1 by lia.
    replace (d + sz - 1) with (d + (sz - 1)) by lia. split.
    + exact H1.
    + pose proof (image_bytes_length w (d + (sz - 1)) 1). lia.
Qed.

Lemma far_read_spec_witness :
  far_read 10 3 (fi_of_entry (mapped 20)) hello_world
  = Done (1, bytes_of "d", hello_world).
Proof.
  refine (proj1 (proj1 (proj2 (proj2
    (far_read_spec hello_world (fi_of_entry (mapped 20)) (mapped 20)
       4 66 eq_refl eq_refl eq_refl eq_refl _ _ _))) 10 3 _ _ _ _));
    vm_compute; intuition congruence.
Defined.

(** ** Attributes *)

Lemma count_links_spec w c k : forall i acc tys,
  child_types w c i k = Done tys ->
  count_links w c i k acc = Done (acc + count_dirs tys).
Proof.
  induction k as [|k IH]; simpl; intros i acc tys H.
  - injection H as <-. unfold count_dirs. simpl. f_equal. lia.
  - inv_bind H. inv_bind H. injection H as <-.
    rewrite Ha. simpl. rewrite (IH _ _ _ Ha0).
    unfold count_dirs. simpl.
    destruct (a =? FAR_DIR_TYPE); simpl; f_equal; lia.
Qed.

Lemma far_children_dir w e c :
  far_type w e = Done FAR_DIR_TYPE -> far_data w e = Done c ->
  far_children w e = Done c.
Proof. intros Ht Hd. unfold far_children. rewrite Ht. simpl. exact Hd. Qed.

(** What [far_fill_stat] stores for a directory. *)
Lemma far_fill_stat_dir w e n c tys :
  far_type w e = Done FAR_DIR_TYPE ->
  far_datasize w e = Done n -> far_data w e = Done c ->
  child_types w c 0 (Z.to_nat n) = Done tys ->
  far_fill_stat w e
  = Done {| st_dev := 0;
            st_ino := match e with
                      | root => 1
                      | mapped off => wrap64 (entry_index off + 2)
                      end;
            st_nlink := 2 + count_dirs tys;
            st_uid := uid w;
            st_gid := gid w;
            st_rdev := 0;
            st_size := n * sizeof_FARentry_t;
            st_blksize := 4096;
            st_blocks := Z.quot (n * sizeof_FARentry_t + 4096 - 1) 512;
            st_atime := far_atime w;
            st_mtime := far_mtime w;
            st_ctime := far_ctime w;
            st_mode := FAR_DIR_MODE |}.
Proof.
  intros Ht Hn Hd Hc. unfold far_fill_stat.
  rewrite Ht. simpl. rewrite Hn. simpl.
  rewrite (@far_children_dir _ _ _ Ht Hd). simpl.
  rewrite (@count_links_spec _ _ _ _ 2 _ Hc). reflexivity.
Qed.

(** What [far_fill_stat] stores for an entry that is not a directory. *)
Lemma far_fill_stat_file w e t n :
  far_type w e = Done t -> t <> FAR_DIR_TYPE ->
  far_datasize w e = Done n ->
  far_fill_stat w e
  = Done {| st_dev := 0;
            st_ino := match e with
                      | root => 1
                      | mapped off => wrap64 (entry_index off + 2)
                      end;
            st_nlink := 1;
            st_uid := uid w;
            st_gid := gid w;
            st_rdev := 0;
            st_size := n;
            st_blksize := 4096;
            st_blocks := Z.quot (n + 4096 - 1) 512;
            st_atime := far_atime w;
            st_mtime := far_mtime w;
            st_ctime := far_ctime w;
            st_mode := FAR_FILE_MODE |}.
Proof.
  intros Ht Hnd Hn. unfold far_fill_stat.
  rewrite Ht. simpl.
  destruct (t =? FAR_DIR_TYPE) eqn:E; [apply Z.eqb_eq in E; contradiction|].
  simpl. rewrite Hn. reflexivity.
Qed.

Lemma far_fill_stat_ino w e st :
  far_fill_stat w e = Done st ->
  st_ino st = match e with
              | root => 1
              | mapped off => wrap64 (entry_index off + 2)
              end.
Proof.
  unfold far_fill_stat. intros H.
  do 5 inv_bind H. injection H as <-. reflexivity.
Qed.

Lemma entry_index_table k :
  entry_index (offsetof_rootdir + sizeof_FARentry_t * k) = k.
Proof.
  unfold entry_index, offsetof_rootdir, sizeof_FARentry_t.
  rewrite Z.shiftr_div_pow2 by lia.
  replace (20 + 16 * k - 20) with (k * 2 ^ 4) by lia.
  apply Z.div_mul. lia.
Qed.

(** C5: the link count that [far_fill_stat] stores.  For a directory it
    is 2 plus the number of its children whose type is directory, for any
    other entry it is 1; a directory with the children (directory, file,
    directory) gets 4. *)
Theorem link_count w e t n :
  far_type w e = Done t -> far_datasize w e = Done n ->
  (t = FAR_DIR_TYPE ->
   forall c tys, far_data w e = Done c ->
     child_types w c 0 (Z.to_nat n) = Done tys ->
     exists st, far_fill_stat w e = Done st
                /\ st_nlink st = 2 + count_dirs tys)
  /\ (t <> FAR_DIR_TYPE ->
      exists st, far_fill_stat w e = Done st /\ st_nlink st = 1)
  /\ (t = FAR_DIR_TYPE ->
      forall c, far_data w e = Done c ->
        child_types w c 0 (Z.to_nat n)
        = Done [FAR_DIR_TYPE; FAR_FILE_TYPE; FAR_DIR_TYPE] ->
        exists st, far_fill_stat w e = Done st /\ st_nlink st = 4).
Proof.
  intros Ht Hn. repeat split.
  - intros -> c tys Hd Hc. eexists. split.
    + eapply far_fill_stat_dir; eassumption.
    + reflexivity.
  - intros Hnd. eexists. split.
    + eapply far_fill_stat_file; eassumption.
    + reflexivity.
  - intros -> c Hd Hc. eexists. split.
    + eapply far_fill_stat_dir; eassumption.
    + reflexivity.
Qed.

Lemma link_count_witness :
  exists st, far_fill_stat tree_world (mapped 20) = Done st
             /\ st_nlink st = 4.
Proof.
  refine (proj2 (proj2 (@link_count tree_world (mapped 20) FAR_DIR_TYPE 3
                          eq_refl eq_refl)) eq_refl 36 eq_refl eq_refl).
Defined.

(** C6: the inode number that [far_fill_stat] stores is 1 for the virtual
    root and the index plus 2 for the entry with that index in the global
    entry table; it is the same in every process state, and two different
    entries of the table, the root included, get different numbers. *)
Theorem inode_numbers w :
  (forall st, far_fill_stat w root = Done st -> st_ino st = 1)
  /\ (forall k st, 0 <= k < 2 ^ 64 - 2 ->
        far_fill_stat w (table_entry k) = Done st -> st_ino st = k + 2)
  /\ (forall w' e st st',
        far_fill_stat w e = Done st -> far_fill_stat w' e = Done st' ->
        st_ino st = st_ino st')
  /\ (forall e1 e2 st1 st2,
        in_table e1 -> in_table e2 -> e1 <> e2 ->
        far_fill_stat w e1 = Done st1 -> far_fill_stat w e2 = Done st2 ->
        st_ino st1 <> st_ino st2).
Proof.
  assert (Htab : forall k st, 0 <= k < 2 ^ 64 - 2 ->
            far_fill_stat w (table_entry k) = Done st -> st_ino st = k + 2).
  { intros k st Hk H. apply far_fill_stat_ino in H. rewrite H.
    unfold table_entry. rewrite entry_index_table. apply wrap64_small. lia. }
  repeat split.
  - intros st H. apply far_fill_stat_ino in H. exact H.
  - exact Htab.
  - intros w' e st st' H H'.
    apply far_fill_stat_ino in H, H'. congruence.
  - intros e1 e2 st1 st2 [->|(k1 & Hk1 & ->)] [->|(k2 & Hk2 & ->)] Hne H1 H2.
    + contradiction.
    + apply far_fill_stat_ino in H1. rewrite H1, (Htab _ _ Hk2 H2). lia.
    + apply far_fill_stat_ino in H2. rewrite H2, (Htab _ _ Hk1 H1). lia.
    + rewrite (Htab _ _ Hk1 H1), (Htab _ _ Hk2 H2).
      intros E. apply Hne. f_equal. lia.
Qed.

Lemma inode_numbers_witness :
  exists st, far_fill_stat hello_world (table_entry 1) = Done st
             /\ st_ino st = 3.
Proof.
  eexists. split.
  - reflexivity.
  - refine (proj1 (proj2 (inode_numbers hello_world)) 1 _ _ _).
    + vm_compute. intuition congruence.
    + reflexivity.
Defined.

(** ** Opening *)

Lemma far_open_found w path fi e parent :
  far_traverse_path w path = Done (Some e, parent) ->
  far_open path fi w
  = if accmode fi =? O_RDWR then Done (- EACCES, fi, w)
    else if accmode fi =? O_WRONLY then Done (- EACCES, fi, w)
    else Done (0, opened fi e, w).
Proof. intros H. unfold far_open. rewrite H. reflexivity. Qed.

Lemma far_open_not_found w path fi parent :
  far_traverse_path w path = Done (None, parent) ->
  far_open path fi w
  = if negb (Z.land (fi_flags fi) O_CREAT =? 0) then Done (- EROFS, fi, w)
    else Done (- ENOENT, fi, w).
Proof. intros H. unfold far_open. rewrite H. reflexivity. Qed.

(** C7 (as stated, it fails): a write-mode open of a path that resolves
    to nothing is answered with [-ENOENT], not with access-denied, and an
    open with [O_CREAT] of a path that exists succeeds when the access mode
    is read-only. *)
Lemma far_open_counterexample :
  accmode (fi_of_flags O_WRONLY) = O_WRONLY
  /\ far_open (bytes_of "/missing") (fi_of_flags O_WRONLY) hello_world
     = Done (- ENOENT, fi_of_flags O_WRONLY, hello_world)
  /\ - ENOENT <> - EACCES
  /\ Z.land (fi_flags (fi_of_flags O_CREAT)) O_CREAT <> 0
  /\ far_open (bytes_of "/hello.txt") (fi_of_flags O_CREAT) hello_world
     = Done (0, opened (fi_of_flags O_CREAT) (mapped 20), hello_world)
  /\ 0 <> - EROFS.
Proof. repeat split; vm_compute; congruence. Qed.

(** C7 (amended): [far_open] looks the path up first.  When the path
    resolves to an entry, every write-mode open fails with [-EACCES];
    when it resolves to nothing, an open with [O_CREAT] fails with
    [-EROFS] and one without fails with [-ENOENT].  A write-mode open
    never succeeds, and every failing open leaves the open-file record and
    the process state as they were. *)
Theorem far_open_policy w path fi :
  (forall e parent,
      far_traverse_path w path = Done (Some e, parent) ->
      accmode fi = O_WRONLY \/ accmode fi = O_RDWR ->
      far_open path fi w = Done (- EACCES, fi, w))
  /\ (forall parent,
        far_traverse_path w path = Done (None, parent) ->
        Z.land (fi_flags fi) O_CREAT <> 0 ->
        far_open path fi w = Done (- EROFS, fi, w))
  /\ (forall parent,
        far_traverse_path w path = Done (None, parent) ->
        Z.land (fi_flags fi) O_CREAT = 0 ->
        far_open path fi w = Done (- ENOENT, fi, w))
  /\ (forall rc fi' w',
        far_open path fi w = Done (rc, fi', w') ->
        (accmode fi = O_WRONLY \/ accmode fi = O_RDWR -> rc <> 0)
        /\ (rc <> 0 -> fi' = fi /\ w' = w)).
Proof.
  repeat split.
  - intros e parent H Hm. rewrite (far_open_found w path fi e parent H).
    destruct Hm as [Hm|Hm]; rewrite Hm; reflexivity.
  - intros parent H Hc. rewrite (far_open_not_found w path fi parent H).
    destruct (Z.land (fi_flags fi) O_CREAT =? 0) eqn:E;
      [apply Z.eqb_eq in E; contradiction|reflexivity].
  - intros parent H Hc. rewrite (far_open_not_found w path fi parent H), Hc. reflexivity.
  - intros Hm. unfold far_open in H. inv_bind H.
    destruct a as [[e|] parent]; simpl in H.
    + fold (accmode fi) in H.
      destruct Hm as [Hm|Hm]; rewrite Hm in H; simpl in H;
        injection H as <- _ _; discriminate.
    + destruct (negb _) in H; injection H as <- _ _; discriminate.
  - unfold far_open in H. inv_bind H.
    destruct a as [[e|] parent]; simpl in H.
    + destruct (_ =? O_RDWR) in H; [injection H; congruence|].
      destruct (_ =? O_WRONLY) in H; [injection H; congruence|].
      injection H as <- _ _. contradiction.
    + destruct (negb _) in H; injection H; congruence.
  - unfold far_open in H. inv_bind H.
    destruct a as [[e|] parent]; simpl in H.
    + destruct (_ =? O_RDWR) in H; [injection H; congruence|].
      destruct (_ =? O_WRONLY) in H; [injection H; congruence|].
      injection H as <- _ _. contradiction.
    + destruct (negb _) in H; injection H; congruence.
Qed.

Lemma far_open_policy_witness :
  far_open (bytes_of "/sub") (fi_of_flags O_WRONLY) hello_world
  = Done (- EACCES, fi_of_flags O_WRONLY, hello_world).
Proof.
  refine (proj1 (far_open_policy hello_world (bytes_of "/sub")
                   (fi_of_flags O_WRONLY)) (mapped 36) root _ _).
  - vm_compute. reflexivity.
  - left. reflexivity.
Defined.

Lemma far_opendir_found w path fi e parent t :
  far_traverse_path w path = Done (Some e, parent) ->
  far_type w e = Done t -> t <> FAR_DIR_TYPE ->
  far_opendir path fi w = Done (- ENOTDIR, fi, w).
Proof.
  intros H Ht Hnd. unfold far_opendir. rewrite H. simpl. rewrite Ht. simpl.
  destruct (t =? FAR_DIR_TYPE) eqn:E; [apply Z.eqb_eq in E; contradiction|].
  reflexivity.
Qed.

(** C9: [far_open] does not look at the type of the entry.  For a path
    that resolves to a directory, a read-only open succeeds and stores the
    entry in the open-file record; a read through that record takes the
    number of children for the length of the data and returns the bytes of
    the image that start at the array of child entries.  [far_opendir]
    answers [-ENOTDIR] for every path that resolves to an entry that is
    not a directory, and [far_open] never answers [-ENOTDIR]. *)
Theorem open_ignores_entry_type w path fi :
  (forall e parent,
      far_traverse_path w path = Done (Some e, parent) ->
      far_type w e = Done FAR_DIR_TYPE ->
      accmode fi = O_RDONLY ->
      far_open path fi w = Done (0, opened fi e, w)
      /\ (forall n c size offset,
            far_datasize w e = Done n -> far_children w e = Done c ->
            0 <= c -> c + sizeof_FARentry_t * n <= mapping_size w ->
            0 <= size -> offset + size < 2 ^ 64 ->
            Z.min size (n - offset) < 2 ^ 31 ->
            0 <= offset < n ->
            far_read size offset (opened fi e) w
            = Done (Z.min size (n - offset),
                    image_bytes w (c + offset) (Z.min size (n - offset)),
                    w)))
  /\ (forall e parent t,
        far_traverse_path w path = Done (Some e, parent) ->
        far_type w e = Done t -> t <> FAR_DIR_TYPE ->
        far_opendir path fi w = Done (- ENOTDIR, fi, w))
  /\ (forall rc fi' w',
        far_open path fi w = Done (rc, fi', w') -> rc <> - ENOTDIR).
Proof.
  split; [|split].
  - intros e parent H Ht Hm. split.
    + rewrite (far_open_found w path fi e parent H), Hm. reflexivity.
    + intros n c size offset Hn Hc Hc0 Hin Hs Hsum Hint Hoff.
      apply (far_read_range w (opened fi e) e n c size offset);
        try assumption; try reflexivity.
      * unfold far_children in Hc. rewrite Ht in Hc. exact Hc.
      * unfold sizeof_FARentry_t in Hin. lia.
  - intros e parent t H Ht Hnd.
    exact (far_opendir_found w path fi e parent t H Ht Hnd).
  - intros rc fi' w' H. unfold far_open in H. inv_bind H.
    destruct a as [[e|] parent]; simpl in H.
    + destruct (_ =? O_RDWR) in H; [injection H as <- _ _; discriminate|].
      destruct (_ =? O_WRONLY) in H; injection H as <- _ _; discriminate.
    + destruct (negb _) in H; injection H as <- _ _; discriminate.
Qed.

Lemma open_ignores_entry_type_witness :
  far_open (bytes_of "/d") (fi_of_flags O_RDONLY) tree_world
  = Done (0, opened (fi_of_flags O_RDONLY) (mapped 20), tree_world)
  /\ far_read 10 1 (opened (fi_of_flags O_RDONLY) (mapped 20)) tree_world
     = Done (2, image_bytes tree_world 37 2, tree_world).
Proof.
  destruct (proj1 (open_ignores_entry_type tree_world (bytes_of "/d")
                     (fi_of_flags O_RDONLY))
              (mapped 20) root eq_refl eq_refl eq_refl) as [Ho Hr].
  split.
  - exact Ho.
  - refine (Hr 3 36 10 1 eq_refl eq_refl _ _ _ _ _ _);
      vm_compute; intuition congruence.
Defined.

(** ** The archive is never written *)

(** C8: each of the six operations, when it returns, leaves the archive
    as it was: the image (header, entry records, names, data), the fields
    of the dummy root and the time stamps, whatever value the operation
    returns.  (Only [far_opendir] and [far_releasedir] change the process
    state at all, and they change the heap.) *)
Theorem operations_preserve_archive :
  (forall path st w r w',
      far_getattr path st w = Done (r, w') ->
      archive_state w' = archive_state w)
  /\ (forall path fi w r w',
        far_open path fi w = Done (r, w') ->
        archive_state w' = archive_state w)
  /\ (forall size offset fi w r w',
        far_read size offset fi w = Done (r, w') ->
        archive_state w' = archive_state w)
  /\ (forall Buf filler buffer offset fi w r w',
        far_readdir Buf filler buffer offset fi w = Done (r, w') ->
        archive_state w' = archive_state w)
  /\ (forall path fi w r w',
        far_opendir path fi w = Done (r, w') ->
        archive_state w' = archive_state w)
  /\ (forall fi w r w',
        far_releasedir fi w = Done (r, w') ->
        archive_state w' = archive_state w).
Proof.
  repeat apply conj.
  - intros path st w r w' H. unfold far_getattr in H. inv_bind H.
    destruct (fst a).
    + inv_bind H. injection H as _ <-. reflexivity.
    + injection H as _ <-. reflexivity.
  - intros path fi w r w' H. unfold far_open in H. inv_bind H.
    destruct (fst a).
    + destruct (_ =? O_RDWR) in H; [injection H as _ <-; reflexivity|].
      destruct (_ =? O_WRONLY) in H; injection H as _ <-; reflexivity.
    + destruct (negb _) in H; injection H as _ <-; reflexivity.
  - intros size offset fi w r w' H. unfold far_read in H.
    destruct (offset <? 0); [injection H as _ <-; reflexivity|].
    destruct (fh fi); try discriminate.
    inv_bind H. destruct (offset >=? a); [injection H as _ <-; reflexivity|].
    inv_bind H. inv_bind H. injection H as _ <-. reflexivity.
  - intros Buf filler buffer offset fi w r w' H. unfold far_readdir in H.
    inv_bind H. inv_bind H. destruct a0 as [[b0 full0] offset0].
    destruct full0; [injection H as _ <-; reflexivity|].
    inv_bind H. destruct a0 as [[b1 full1] offset1].
    destruct full1; [injection H as _ <-; reflexivity|].
    inv_bind H. inv_bind H. injection H as _ <-. reflexivity.
  - intros path fi w r w' H. unfold far_opendir in H. inv_bind H.
    destruct a as [[e|] parent].
    + inv_bind H. destruct (negb _) in H; [injection H as _ <-; reflexivity|].
      unfold far_dir_new in H.
      destruct (_ <? _)%nat in H; injection H as _ <-; reflexivity.
    + injection H as _ <-. reflexivity.
  - intros fi w r w' H. unfold far_releasedir in H.
    destruct (fh fi); try discriminate.
    + injection H as _ <-. reflexivity.
    + destruct (nth_error (heap w) addr) as [[d|]|]; try discriminate.
      injection H as _ <-. reflexivity.
Qed.

Lemma operations_preserve_archive_witness :
  exists r w',
    far_opendir (bytes_of "/sub") (fi_of_flags O_RDONLY) hello_world
    = Done (r, w')
    /\ heap w' <> heap hello_world
    /\ archive_state w' = archive_state hello_world.
Proof.
  eexists. eexists. split; [reflexivity|]. split; [discriminate|].
  refine (proj1 (proj2 (proj2 (proj2 (proj2 operations_preserve_archive))))
            (bytes_of "/sub") (fi_of_flags O_RDONLY) hello_world _ _ _).
  reflexivity.
Defined.

(** ** Listing a directory *)

Section ReaddirFacts.

Variable Buf : Type.
Variable filler : Buf -> list byte -> stat -> Z -> Buf * bool.

(** The loop feeds the filler the children from the cursor on. *)
Lemma readdir_loop_feed w e k : forall off offset buffer kids,
  child_listing w e (off - 2) k = Done kids ->
  off <= offset ->
  readdir_loop Buf filler w e off k offset buffer
  = Done (feed Buf filler buffer
            (skipn (Z.to_nat (offset - off)) kids) offset).
Proof.
  induction k as [|k IH]; intros off offset buffer kids H Hle.
  - simpl in H. injection H as <-. rewrite skipn_nil. reflexivity.
  - simpl in H. do 5 inv_bind H. injection H as <-.
    replace (off - 2 + 1) with (off + 1 - 2) in Ha3 by lia.
    simpl. destruct (off =? offset) eqn:E.
    + apply Z.eqb_eq in E. subst offset.
      rewrite Ha. simpl. rewrite Ha0. simpl. rewrite Ha1. simpl.
      rewrite Ha2. simpl.
      replace (off - off) with 0 by lia. simpl.
      destruct (filler buffer a2 a0 (off + 1)) as [b full].
      destruct full; [reflexivity|].
      rewrite (IH (off + 1) (off + 1) b a3 Ha3) by lia.
      replace (off + 1 - (off + 1)) with 0 by lia. reflexivity.
    + apply Z.eqb_neq in E.
      rewrite (IH (off + 1) offset buffer a3 Ha3) by lia.
      replace (Z.to_nat (offset - off))
        with (S (Z.to_nat (offset - (off + 1)))) by lia.
      reflexivity.
Qed.

(** Past the last child the loop never calls the filler. *)
Lemma readdir_loop_past_end w e k : forall off offset buffer,
  off + Z.of_nat k <= offset ->
  readdir_loop Buf filler w e off k offset buffer = Done buffer.
Proof.
  induction k as [|k IH]; intros off offset buffer H; simpl.
  - reflexivity.
  - replace (off =? offset) with false by (symmetry; apply Z.eqb_neq; lia).
    apply IH. lia.
Qed.

(** One call of [far_readdir] at a cursor [offset]: the filler is fed
    the listing from position [offset] on. *)
Lemma far_readdir_feed w fi d st_self st_parent n kids buffer offset :
  deref_dir w (fh fi) = Done d ->
  far_fill_stat w (entry d) = Done st_self ->
  far_fill_stat w (parent d) = Done st_parent ->
  far_datasize w (entry d) = Done n ->
  child_listing w (entry d) 0 (Z.to_nat n) = Done kids ->
  0 <= offset ->
  far_readdir Buf filler buffer offset fi w
  = Done (0,
          feed Buf filler buffer
            (skipn (Z.to_nat offset)
               ((dot, st_self) :: (dotdot, st_parent) :: kids)) offset,
          w).
Proof.
  intros Hd Hs Hp Hn Hk H0. unfold far_readdir. rewrite Hd. simpl.
  destruct (offset =? 0) eqn:E0.
  - apply Z.eqb_eq in E0. subst offset. rewrite Hs. simpl.
    destruct (filler buffer dot st_self 1) as [b full].
    destruct full; [reflexivity|]. simpl.
    rewrite Hp. simpl.
    destruct (filler b dotdot st_parent 2) as [b' full'].
    destruct full'; [reflexivity|].
    rewrite Hn. simpl.
    rewrite (readdir_loop_feed w (entry d) (Z.to_nat n) 2 2 b' kids Hk)
      by lia.
    reflexivity.
  - apply Z.eqb_neq in E0. simpl.
    destruct (offset =? 1) eqn:E1.
    + apply Z.eqb_eq in E1. subst offset. rewrite Hp. simpl.
      destruct (filler buffer dotdot st_parent 2) as [b' full'].
      destruct full'; [reflexivity|].
      rewrite Hn. simpl.
      rewrite (readdir_loop_feed w (entry d) (Z.to_nat n) 2 2 b' kids Hk)
        by lia.
      reflexivity.
    + apply Z.eqb_neq in E1. simpl. rewrite Hn. simpl.
      rewrite (readdir_loop_feed w (entry d) (Z.to_nat n) 2 offset
                 buffer kids Hk) by lia.
      replace (Z.to_nat offset) with (S (S (Z.to_nat (offset - 2))))
        by lia.
      reflexivity.
Qed.

End ReaddirFacts.

Lemma with_cursors_app a b c :
  with_cursors (a ++ b) c
  = with_cursors a c ++ with_cursors b (c + Z.of_nat (length a)).
Proof.
  revert c; induction a as [|[name st] a IH]; intros c; simpl.
  - f_equal. lia.
  - rewrite IH. do 3 f_equal. lia.
Qed.

Lemma with_cursors_last_default items : forall c d,
  last (map snd (with_cursors items c)) d
  = match items with
    | [] => d
    | _ :: _ => c + Z.of_nat (length items)
    end.
Proof.
  induction items as [|[name st] items IH]; intros c d.
  - reflexivity.
  - specialize (IH (c + 1) d).
    destruct items as [|[name' st'] items'].
    + simpl. lia.
    + change (last (map snd (with_cursors ((name', st') :: items') (c + 1))) d
              = c + Z.of_nat (length ((name, st) :: (name', st') :: items'))).
      rewrite IH. cbn [length]. lia.
Qed.

(** The cursor that came with the last entry of a chunk. *)
Lemma with_cursors_last items c :
  last (map snd (with_cursors items c)) c = c + Z.of_nat (length items).
Proof.
  rewrite with_cursors_last_default.
  destruct items; cbn [length]; lia.
Qed.

(** A recording filler with room for [cap] entries takes the first [cap]
    of what it is fed. *)
Lemma feed_recording items : forall acc cap c,
  fst (feed (list dirent * nat) recording_filler (acc, cap) items c)
  = acc ++ with_cursors (firstn cap items) c.
Proof.
  induction items as [|[name st] items IH]; intros acc cap c; simpl.
  - rewrite firstn_nil. simpl. rewrite app_nil_r. reflexivity.
  - destruct cap as [|cap]; simpl.
    + rewrite app_nil_r. reflexivity.
    + rewrite IH. rewrite <- app_assoc. reflexivity.
Qed.

Lemma skipn_firstn_length {A : Type} (n : nat) (l : list A) :
  skipn (length (firstn n l)) l = skipn n l.
Proof.
  rewrite length_firstn.
  destruct (Nat.le_ge_cases n (length l)) as [H|H].
  - rewrite Nat.min_l by exact H. reflexivity.
  - rewrite Nat.min_r by exact H.
    rewrite skipn_all. symmetry. apply skipn_all2. exact H.
Qed.

Lemma firstn_plus {A : Type} (n m : nat) (l : list A) :
  firstn (n + m) l = firstn n l ++ firstn m (skipn n l).
Proof.
  revert l; induction n as [|n IH]; intros l; simpl.
  - reflexivity.
  - destruct l as [|x l]; simpl.
    + rewrite firstn_nil. reflexivity.
    + rewrite IH. reflexivity.
Qed.

(** Listing in chunks from a cursor [c]: the chunks, put together, are the
    entries of the listing from position [c] on, as many as the chunks
    have room for. *)
Lemma list_directory_from w fi d st_self st_parent n kids :
  deref_dir w (fh fi) = Done d ->
  far_fill_stat w (entry d) = Done st_self ->
  far_fill_stat w (parent d) = Done st_parent ->
  far_datasize w (entry d) = Done n ->
  child_listing w (entry d) 0 (Z.to_nat n) = Done kids ->
  forall caps c, 0 <= c ->
    list_directory w fi caps c
    = Done (with_cursors
              (firstn (list_sum caps)
                 (skipn (Z.to_nat c)
                    ((dot, st_self) :: (dotdot, st_parent) :: kids))) c).
Proof.
  intros Hd Hs Hp Hn Hk. set (l := (dot, st_self) :: (dotdot, st_parent) :: kids).
  induction caps as [|cap caps IH]; intros c Hc.
  - reflexivity.
  - cbn [list_directory list_sum fold_right].
    rewrite (far_readdir_feed (list dirent * nat) recording_filler w fi d
               st_self st_parent n kids ([], cap) c Hd Hs Hp Hn Hk Hc).
    fold l. cbn [bind fst snd].
    rewrite feed_recording. cbn [app].
    rewrite with_cursors_last.
    rewrite IH by lia. cbn [bind].
    f_equal.
    rewrite firstn_plus, with_cursors_app. do 2 f_equal.
    replace (Z.to_nat (c + Z.of_nat
                             (length (firstn cap (skipn (Z.to_nat c) l)))))
      with (length (firstn cap (skipn (Z.to_nat c) l)) + Z.to_nat c)%nat
      by lia.
    rewrite <- skipn_skipn. rewrite skipn_firstn_length. reflexivity.
Qed.

Lemma with_cursors_names items c :
  map d_name (with_cursors items c) = map fst items.
Proof.
  revert c; induction items as [|[name st] items IH]; intros c; simpl;
    [reflexivity|]. rewrite IH. reflexivity.
Qed.

(** C4: listing an open directory whose own entry, parent and children
    can be read.  The listing is [.] with the attributes of the directory,
    [..] with those of the parent captured at open time, then the children
    in stored order.  A call at cursor [offset] hands the filler the
    entries from position [offset] on, each with the cursor of its
    successor, and stops when the filler reports a full buffer.  Hence a
    consumer that lists in chunks of any capacities, resuming each call at
    the cursor of the last entry it took, receives the whole listing, each
    entry once and in order, as soon as the capacities add up to its
    length. *)
Theorem readdir_cursor_protocol w fi d st_self st_parent n kids :
  deref_dir w (fh fi) = Done d ->
  far_fill_stat w (entry d) = Done st_self ->
  far_fill_stat w (parent d) = Done st_parent ->
  far_datasize w (entry d) = Done n ->
  child_listing w (entry d) 0 (Z.to_nat n) = Done kids ->
  let l := (dot, st_self) :: (dotdot, st_parent) :: kids in
  (forall Buf filler buffer offset,
      0 <= offset ->
      far_readdir Buf filler buffer offset fi w
      = Done (0, feed Buf filler buffer (skipn (Z.to_nat offset) l) offset,
              w))
  /\ (forall caps,
        (length l <= list_sum caps)%nat ->
        list_directory w fi caps 0 = Done (with_cursors l 0))
  /\ map d_name (with_cursors l 0) = dot :: dotdot :: map fst kids.
Proof.
  intros Hd Hs Hp Hn Hk l. split; [|split].
  - intros Buf filler buffer offset H0.
    apply (far_readdir_feed Buf filler w fi d st_self st_parent n kids
             buffer offset Hd Hs Hp Hn Hk H0).
  - intros caps Hcaps.
    rewrite (list_directory_from w fi d st_self st_parent n kids
               Hd Hs Hp Hn Hk caps 0) by lia.
    fold l. change (Z.to_nat 0) with 0%nat. cbn [skipn].
    rewrite firstn_all2 by exact Hcaps. reflexivity.
  - rewrite with_cursors_names. reflexivity.
Qed.

Lemma readdir_cursor_protocol_witness :
  exists got,
    list_directory tree_dir_world tree_dir_fi [1; 0; 2; 5]%nat 0 = Done got
    /\ map d_name got
       = [bytes_of "."; bytes_of ".."; bytes_of "d1"; bytes_of "f1";
          bytes_of "d2"].
Proof.
  destruct (readdir_cursor_protocol tree_dir_world tree_dir_fi
              _ _ _ _ _ eq_refl eq_refl eq_refl eq_refl eq_refl)
    as (_ & Hall & Hnames).
  eexists. split.
  - apply Hall. vm_compute. lia.
  - rewrite Hnames. reflexivity.
Defined.

(** C10: on an open directory with [n] children, a call of [far_readdir]
    at a cursor of [n + 2] or more returns 0 and hands the buffer back as
    it was, whatever the filler: the filler is not called, and a recording
    filler has nothing recorded. *)
Theorem readdir_past_end w fi d n :
  deref_dir w (fh fi) = Done d ->
  far_datasize w (entry d) = Done n ->
  0 <= n ->
  forall c, n + 2 <= c ->
    (forall Buf filler buffer,
        far_readdir Buf filler buffer c fi w = Done (0, buffer, w))
    /\ (forall cap,
          far_readdir (list dirent * nat) recording_filler ([], cap) c fi w
          = Done (0, ([], cap), w)).
Proof.
  intros Hd Hn Hn0 c Hc.
  assert (H : forall Buf filler buffer,
             far_readdir Buf filler buffer c fi w = Done (0, buffer, w)).
  { intros Buf filler buffer. unfold far_readdir. rewrite Hd. simpl.
    replace (c =? 0) with false by (symmetry; apply Z.eqb_neq; lia).
    simpl.
    replace (c =? 1) with false by (symmetry; apply Z.eqb_neq; lia).
    simpl. rewrite Hn. simpl.
    rewrite readdir_loop_past_end by lia. reflexivity. }
  split.
  - exact H.
  - intros cap. apply H.
Qed.

Lemma readdir_past_end_witness :
  far_readdir (list dirent * nat) recording_filler ([], 4%nat) 5
    tree_dir_fi tree_dir_world
  = Done (0, ([], 4%nat), tree_dir_world).
Proof.
  refine (proj2 (readdir_past_end tree_dir_world tree_dir_fi
                   {| parent := root; entry := mapped 20 |} 3
                   eq_refl eq_refl _ 5 _) 4%nat);
    vm_compute; congruence.
Defined.

(** * Properties of the rest of the file *)

(** ** Names and the first match *)

Lemma read_c_str_firstn mem : forall s,
  read_c_str mem = Done s -> firstn (length s) mem = s.
Proof.
  induction mem as [|m mem IH]; intros s H; simpl in H; [discriminate|].
  destruct (Byte.eqb m NUL).
  - injection H as <-. reflexivity.
  - inv_bind H. injection H as <-. simpl. rewrite (IH a Ha). reflexivity.
Qed.

Lemma strlen_spec mem : forall s,
  read_c_str mem = Done s -> strlen mem = Done (Z.of_nat (length s)).
Proof.
  induction mem as [|m mem IH]; intros s H; simpl in H; [discriminate|].
  simpl. destruct (Byte.eqb m NUL).
  - injection H as <-. reflexivity.
  - inv_bind H. injection H as <-. rewrite (IH a Ha). simpl.
    f_equal. lia.
Qed.

(** The test of the intermediate loop, [strlen(name) == n && memcmp(...)
    == 0], holds exactly when the component is the name. *)
Lemma component_test_spec mem s comp :
  read_c_str mem = Done s ->
  (Z.of_nat (length s) =? Z.of_nat (length comp))
  && memcmp_eq comp mem (length comp)
  = bytes_eqb comp s.
Proof.
  intros H. destruct (Z.of_nat (length s) =? Z.of_nat (length comp)) eqn:E.
  - apply Z.eqb_eq in E. apply Nat2Z.inj in E. simpl.
    unfold memcmp_eq, bytes_eqb. rewrite <- E.
    rewrite (read_c_str_firstn mem s H). rewrite E, firstn_all.
    destruct (list_eq_dec Byte.byte_eq_dec comp s);
      destruct (list_eq_dec Byte.byte_eq_dec comp s); congruence.
  - apply Z.eqb_neq in E. simpl. symmetry. apply bytes_eqb_neq.
    intros ->. contradiction.
Qed.

Lemma bytes_eqb_refl a : bytes_eqb a a = true.
Proof.
  unfold bytes_eqb.
  destruct (list_eq_dec Byte.byte_eq_dec a a); [reflexivity|contradiction].
Qed.

Lemma c_str_nul_free s : ~ In NUL s -> c_str s = s.
Proof.
  induction s as [|c s IH]; simpl; intros H; [reflexivity|].
  rewrite byte_eqb_false by (intros ->; apply H; now left).
  rewrite IH by (intros H'; apply H; now right). reflexivity.
Qed.

Lemma child_names_length w dir k : forall i names,
  child_names w dir i k = Done names -> length names = k.
Proof.
  induction k as [|k IH]; intros i names H; simpl in H.
  - injection H as <-. reflexivity.
  - do 4 inv_bind H. injection H as <-. simpl. f_equal.
    exact (IH (i + 1) a2 Ha2).
Qed.

(** The loop over the children for an intermediate component stops at
    the first child, in stored order, whose name is the component. *)
Lemma match_component_first w dir comp c pre : forall post i k,
  far_children w dir = Done c ->
  child_names w dir i k = Done (pre ++ comp :: post) ->
  ~ In comp pre ->
  match_component w dir comp i k
  = Done (Some (child_at c (i + Z.of_nat (length pre)))).
Proof.
  induction pre as [|p pre IH]; intros post i k Hc H Hn;
    (destruct k as [|k]; simpl in H; [discriminate|]);
    do 4 inv_bind H; injection H as E1 E2; subst;
    simpl; rewrite Ha; simpl; rewrite Ha0; simpl;
    rewrite (strlen_spec _ _ Ha1); simpl;
    rewrite (component_test_spec _ _ comp Ha1).
  - rewrite bytes_eqb_refl. rewrite Hc in Ha. injection Ha as <-.
    do 3 f_equal. lia.
  - rewrite bytes_eqb_neq by (intros E; apply Hn; left; congruence).
    rewrite (IH post (i + 1) k Hc Ha2)
      by (intros Hin; apply Hn; right; exact Hin).
    do 3 f_equal. lia.
Qed.

Lemma match_component_none w dir comp k : forall i names,
  child_names w dir i k = Done names ->
  ~ In comp names ->
  match_component w dir comp i k = Done None.
Proof.
  induction k as [|k IH]; intros i names H Hn; simpl in *; [reflexivity|].
  do 4 inv_bind H. injection H as <-.
  rewrite Ha. simpl. rewrite Ha0. simpl.
  rewrite (strlen_spec _ _ Ha1). simpl.
  rewrite (component_test_spec _ _ comp Ha1).
  rewrite bytes_eqb_neq by (intros E; apply Hn; left; congruence).
  apply (IH (i + 1) a2 Ha2). intros Hin. apply Hn. right. exact Hin.
Qed.

(** The loop for the final component does the same with [strcmp]. *)
Lemma match_final_first w dir path c pre : forall post i k,
  far_children w dir = Done c ->
  child_names w dir i k = Done (pre ++ c_str path :: post) ->
  ~ In (c_str path) pre ->
  match_final w dir path i k
  = Done (Some (child_at c (i + Z.of_nat (length pre)))).
Proof.
  induction pre as [|p pre IH]; intros post i k Hc H Hn;
    (destruct k as [|k]; simpl in H; [discriminate|]);
    do 4 inv_bind H; injection H as E1 E2; subst;
    simpl; rewrite Ha; simpl; rewrite Ha0; simpl;
    rewrite (strcmp_eq_spec _ path _ Ha1); simpl.
  - rewrite bytes_eqb_refl. rewrite Hc in Ha. injection Ha as <-.
    do 3 f_equal. lia.
  - rewrite bytes_eqb_neq by (intros E; apply Hn; left; congruence).
    rewrite (IH post (i + 1) k Hc Ha2)
      by (intros Hin; apply Hn; right; exact Hin).
    do 3 f_equal. lia.
Qed.

(** ** Resolving paths that match *)

Lemma root_child_lookup w c n name pre post :
  far_children w root = Done c ->
  far_datasize w root = Done n ->
  child_names w root 0 (Z.to_nat n) = Done (pre ++ name :: post) ->
  ~ In name pre ->
  name <> [] -> ~ In slash name -> ~ In NUL name ->
  far_traverse_path w (slash :: name)
  = Done (Some (child_at c (Z.of_nat (length pre))), root).
Proof.
  intros Hc Hn Hnames Hpre Hne Hs Hnul.
  pose proof (c_str_nul_free name Hnul) as Hcs.
  rewrite far_traverse_path_eq by (reflexivity || congruence).
  rewrite Hcs, traverse_loop_eq, strchr_slash_none by assumption.
  cbn [bind final_lookup]. rewrite Hn. cbn [bind].
  rewrite (match_final_first w root name c pre post 0 (Z.to_nat n) Hc)
    by (rewrite Hcs; assumption).
  reflexivity.
Qed.

(** A path of one component resolves to the first child of the root, in
    stored order, that bears the name; the parent reported is the root. *)
Theorem resolve_root_child w c n name pre post :
  far_children w root = Done c ->
  far_datasize w root = Done n ->
  child_names w root 0 (Z.to_nat n) = Done (pre ++ name :: post) ->
  ~ In name pre ->
  name <> [] -> ~ In slash name -> ~ In NUL name ->
  far_traverse_path w (slash :: name)
  = Done (Some (child_at c (Z.of_nat (length pre))), root).
Proof. exact (root_child_lookup w c n name pre post). Qed.

Lemma resolve_root_child_witness :
  far_traverse_path hello_world (bytes_of "/sub")
  = Done (Some (mapped 36), root).
Proof.
  refine (resolve_root_child hello_world 20 2 (bytes_of "sub")
            [bytes_of "hello.txt"] [] eq_refl eq_refl eq_refl _ _ _ _);
    vm_compute; intuition congruence.
Defined.

(** A path of two components: the first is looked up among the children
    of the root, the second among the children of the entry found, first
    match first.  The parent reported with the result is the root, the
    directory in which the first component was found. *)
Theorem resolve_two_components w c n a b pre post c' m pre' post' :
  far_children w root = Done c ->
  far_datasize w root = Done n ->
  child_names w root 0 (Z.to_nat n) = Done (pre ++ a :: post) ->
  ~ In a pre ->
  far_children w (child_at c (Z.of_nat (length pre))) = Done c' ->
  far_datasize w (child_at c (Z.of_nat (length pre))) = Done m ->
  child_names w (child_at c (Z.of_nat (length pre))) 0 (Z.to_nat m)
  = Done (pre' ++ b :: post') ->
  ~ In b pre' ->
  ~ In slash a -> ~ In NUL a -> ~ In slash b -> ~ In NUL b ->
  far_traverse_path w (slash :: a ++ slash :: b)
  = Done (Some (child_at c' (Z.of_nat (length pre'))), root).
Proof.
  intros Hc Hn Hnames Hpre Hc' Hm Hnames' Hpre' Hsa Hna Hsb Hnb.
  pose proof (c_str_nul_free b Hnb) as Hcs.
  rewrite far_traverse_path_eq.
  - rewrite c_str_app_slash, Hcs by assumption.
    rewrite traverse_loop_eq, strchr_slash_app by assumption.
    rewrite Hn. cbn [bind].
    rewrite (match_component_first w root a c pre post 0 (Z.to_nat n)
               Hc Hnames Hpre).
    cbn [bind Z.add].
    rewrite traverse_loop_eq, strchr_slash_none by assumption.
    cbn [bind final_lookup]. rewrite Hm. cbn [bind].
    rewrite (match_final_first w _ b c' pre' post' 0 (Z.to_nat m) Hc')
      by (rewrite Hcs; assumption).
    reflexivity.
  - reflexivity.
  - rewrite c_str_app_slash by assumption. destruct a; discriminate.
Qed.

Lemma resolve_two_components_witness :
  far_traverse_path tree_world (bytes_of "/d/f1")
  = Done (Some (mapped 52), root).
Proof.
  refine (resolve_two_components tree_world 20 1 (bytes_of "d")
            (bytes_of "f1") [] [] 36 3 [bytes_of "d1"] [bytes_of "d2"]
            eq_refl eq_refl eq_refl _ eq_refl eq_refl eq_refl _ _ _ _ _);
    vm_compute; intuition congruence.
Defined.

(** An intermediate component that is the name of no child of the root
    and has a non-empty rest of the path after it is dropped: the path
    resolves as the rest alone does.  (With nothing after the slash the
    two differ, the path [/] being the root itself.) *)
Theorem unmatched_component_dropped_by_name w n names comp rest :
  far_datasize w root = Done n ->
  child_names w root 0 (Z.to_nat n) = Done names ->
  ~ In comp names ->
  ~ In slash comp -> ~ In NUL comp -> c_str rest <> [] ->
  far_traverse_path w (slash :: comp ++ slash :: rest)
  = far_traverse_path w (slash :: rest).
Proof.
  intros Hn Hnames Hnot Hs Hnul Hr.
  apply (unmatched_component_is_dropped w comp rest n); try assumption.
  exact (match_component_none w root comp (Z.to_nat n) 0 names Hnames Hnot).
Qed.

Lemma unmatched_component_dropped_by_name_witness :
  far_traverse_path tree_world (bytes_of "/nowhere/d/d2")
  = far_traverse_path tree_world (bytes_of "/d/d2").
Proof.
  refine (unmatched_component_dropped_by_name tree_world 1 [bytes_of "d"]
            (bytes_of "nowhere") (bytes_of "d/d2") eq_refl eq_refl _ _ _ _);
    vm_compute; intuition congruence.
Defined.




(** ** Attributes: what else [far_fill_stat] stores *)

Lemma count_links_bounds w c k : forall i acc r,
  count_links w c i k acc = Done r -> acc <= r <= acc + Z.of_nat k.
Proof.
  induction k as [|k IH]; intros i acc r H; simpl in H.
  - injection H as <-. lia.
  - inv_bind H. apply IH in H. destruct (a =? FAR_DIR_TYPE); lia.
Qed.

(** The attributes of an entry: the size is the payload length of a file
    and 16 times the number of children of a directory; the mode is
    [dr-xr-xr-x] or [-r--r--r--] and never has a write bit; owner and time
    stamps are those of the process and of the archive file; the link
    count of a directory lies between 2 and 2 plus its number of
    children. *)
Theorem far_fill_stat_attributes w e st :
  far_fill_stat w e = Done st ->
  exists t n,
    far_type w e = Done t /\ far_datasize w e = Done n
    /\ st_size st = (if t =? FAR_DIR_TYPE then n * 16 else n)
    /\ st_mode st = (if t =? FAR_DIR_TYPE then 16749 else 33060)
    /\ Z.land (st_mode st) (Z.lor S_IWUSR (Z.lor S_IWGRP S_IWOTH)) = 0
    /\ (if t =? FAR_DIR_TYPE
        then 2 <= st_nlink st <= 2 + Z.of_nat (Z.to_nat n)
        else st_nlink st = 1)
    /\ st_blksize st = 4096
    /\ st_blocks st = Z.quot (st_size st + 4095) 512
    /\ (st_uid st, st_gid st) = (uid w, gid w)
    /\ (st_atime st, st_mtime st, st_ctime st)
       = (far_atime w, far_mtime w, far_ctime w)
    /\ (st_dev st, st_rdev st) = (0, 0).
Proof.
  unfold far_fill_stat. intros H.
  inv_bind H. rename a into t. rename Ha into Ht.
  inv_bind H. rename a into nlink. rename Ha into Hl.
  inv_bind H. rewrite Ht in Ha. injection Ha as <-.
  inv_bind H. rename a into sz. rename Ha into Hsz.
  inv_bind H. rewrite Ht in Ha. injection Ha as <-.
  injection H as <-.
  cbn [st_size st_mode st_nlink st_blksize st_blocks st_uid st_gid
       st_atime st_mtime st_ctime st_dev st_rdev].
  destruct (t =? FAR_DIR_TYPE) eqn:E.
  - inv_bind Hsz. injection Hsz as <-. rename a into n.
    exists t, n.
    inv_bind Hl. rewrite Ha in Ha0. injection Ha0 as <-.
    inv_bind Hl. apply count_links_bounds in Hl.
    unfold sizeof_FARentry_t. rewrite E.
    repeat split; try reflexivity; try assumption; try lia.
    f_equal. lia.
  - exists t, sz. injection Hl as <-. rewrite E.
    repeat split; try reflexivity; try assumption.
    f_equal. lia.
Qed.

Lemma far_fill_stat_attributes_witness :
  exists t n,
    far_type tree_world (mapped 20) = Done t
    /\ far_datasize tree_world (mapped 20) = Done n
    /\ 48 = (if t =? FAR_DIR_TYPE then n * 16 else n).
Proof.
  destruct (far_fill_stat_attributes tree_world (mapped 20)
              {| st_dev := 0; st_ino := 2; st_nlink := 4; st_uid := 1000;
                 st_gid := 1000; st_rdev := 0; st_size := 48;
                 st_blksize := 4096; st_blocks := 8; st_atime := 10;
                 st_mtime := 20; st_ctime := 30; st_mode := 16749 |}
              eq_refl) as (t & n & Ht & Hn & Hs & _).
  exists t, n. repeat split; assumption.
Defined.

(** ** No abort outside the walk *)

Lemma bind_no_abort {A B : Type} (r : result A) (k : A -> result B) :
  r <> Abort -> (forall a, r = Done a -> k a <> Abort) ->
  bind r k <> Abort.
Proof.
  intros Hr Hk. destruct r as [a| |]; simpl.
  - apply Hk. reflexivity.
  - contradiction.
  - discriminate.
Qed.

Lemma entry_field_no_abort w e proj off : entry_field w e proj off <> Abort.
Proof.
  destruct e as [|a]; simpl; [discriminate|].
  unfold load32, load_bytes. simpl.
  destruct ((0 <=? a + off) && (a + off + 4 <=? mapping_size w));
    simpl; discriminate.
Qed.

Lemma far_type_no_abort w e : far_type w e <> Abort.
Proof.
  unfold far_type. apply bind_no_abort; [apply entry_field_no_abort|].
  discriminate.
Qed.

Lemma far_datasize_no_abort w e : far_datasize w e <> Abort.
Proof.
  unfold far_datasize. apply bind_no_abort; [apply entry_field_no_abort|].
  discriminate.
Qed.

Lemma far_data_no_abort w e : far_data w e <> Abort.
Proof.
  unfold far_data. apply bind_no_abort; [apply entry_field_no_abort|].
  discriminate.
Qed.

Lemma far_name_no_abort w e : far_name w e <> Abort.
Proof.
  unfold far_name. apply bind_no_abort; [apply entry_field_no_abort|].
  discriminate.
Qed.

Lemma far_children_no_abort w e :
  far_type w e = Done FAR_DIR_TYPE -> far_children w e <> Abort.
Proof.
  intros H. unfold far_children. rewrite H. simpl. apply far_data_no_abort.
Qed.

Lemma count_links_no_abort w c k : forall i acc,
  count_links w c i k acc <> Abort.
Proof.
  induction k as [|k IH]; intros i acc; simpl; [discriminate|].
  apply bind_no_abort; [apply far_type_no_abort|]. intros a _. apply IH.
Qed.

Lemma far_fill_stat_no_abort w e : far_fill_stat w e <> Abort.
Proof.
  unfold far_fill_stat.
  apply bind_no_abort; [apply far_type_no_abort|]. intros t Ht.
  apply bind_no_abort.
  - destruct (t =? FAR_DIR_TYPE) eqn:E; [|discriminate].
    apply Z.eqb_eq in E. subst t.
    apply bind_no_abort; [apply far_datasize_no_abort|]. intros n _.
    apply bind_no_abort; [apply far_children_no_abort; exact Ht|].
    intros c _. apply count_links_no_abort.
  - intros nlink _.
    apply bind_no_abort; [apply far_type_no_abort|]. intros t1 _.
    apply bind_no_abort.
    + destruct (t1 =? FAR_DIR_TYPE); [|apply far_datasize_no_abort].
      apply bind_no_abort; [apply far_datasize_no_abort|]. discriminate.
    + intros sz _.
      apply bind_no_abort; [apply far_type_no_abort|]. discriminate.
Qed.

(** [far_fill_stat] never aborts, whatever the entry: it asks for the
    children only after it has seen that the entry is a directory. *)
Theorem far_fill_stat_never_aborts w e : far_fill_stat w e <> Abort.
Proof. exact (far_fill_stat_no_abort w e). Qed.

Lemma strcmp_eq_no_abort mem : forall s, strcmp_eq s mem <> Abort.
Proof.
  induction mem as [|m mem IH]; intros s; destruct s as [|c s]; simpl;
    try discriminate.
  destruct (Byte.eqb c m); [|discriminate].
  destruct (Byte.eqb c NUL); [discriminate|]. apply IH.
Qed.

Lemma match_final_no_abort w dir path k : forall i,
  far_type w dir = Done FAR_DIR_TYPE ->
  match_final w dir path i k <> Abort.
Proof.
  induction k as [|k IH]; intros i Hd; simpl; [discriminate|].
  apply bind_no_abort; [apply far_children_no_abort; exact Hd|].
  intros c _.
  apply bind_no_abort; [apply far_name_no_abort|]. intros name _.
  apply bind_no_abort; [apply strcmp_eq_no_abort|]. intros eq _.
  destruct eq; [discriminate|]. apply IH. exact Hd.
Qed.

(** When the root is a directory, as it is after start-up, the lookup of
    a path of one component never aborts, and neither does [far_getattr]
    on it: an abort needs an intermediate component. *)
Theorem one_component_never_aborts w name st :
  far_type w root = Done FAR_DIR_TYPE ->
  ~ In slash (c_str name) ->
  far_traverse_path w (slash :: name) <> Abort
  /\ far_getattr (slash :: name) st w <> Abort.
Proof.
  intros Hroot Hs.
  assert (Hp : far_traverse_path w (slash :: name) <> Abort).
  { destruct (c_str name) as [|c0 rest0] eqn:Ec.
    - unfold far_traverse_path.
      change (c_str (slash :: name)) with (slash :: c_str name).
      rewrite Ec. discriminate.
    - rewrite far_traverse_path_eq by (reflexivity || congruence).
      rewrite Ec, traverse_loop_eq, strchr_slash_none by exact Hs.
      cbn [bind final_lookup].
      apply bind_no_abort; [apply far_datasize_no_abort|]. intros n _.
      apply bind_no_abort; [apply match_final_no_abort; exact Hroot|].
      discriminate. }
  split; [exact Hp|].
  unfold far_getattr. apply bind_no_abort; [exact Hp|]. intros r _.
  destruct (fst r); [|discriminate].
  apply bind_no_abort; [apply far_fill_stat_no_abort|]. discriminate.
Qed.

Lemma one_component_never_aborts_witness :
  far_traverse_path hello_world (slash :: bytes_of "hello.txt") <> Abort
  /\ far_getattr (slash :: bytes_of "hello.txt") stat_zero hello_world
     <> Abort.
Proof.
  refine (one_component_never_aborts hello_world (bytes_of "hello.txt")
            stat_zero eq_refl _).
  vm_compute. intuition congruence.
Defined.

(** The inode number reported for an entry of the root directory: the
    n-th child of the root, counted from 0, is entry n of the global
    table, so [far_getattr] on its name reports inode n + 2. *)
Theorem getattr_root_child w n name pre post st st' :
  far_children w root = Done offsetof_rootdir ->
  far_datasize w root = Done n -> n < 2 ^ 32 ->
  child_names w root 0 (Z.to_nat n) = Done (pre ++ name :: post) ->
  ~ In name pre ->
  name <> [] -> ~ In slash name -> ~ In NUL name ->
  far_fill_stat w (table_entry (Z.of_nat (length pre))) = Done st' ->
  far_getattr (slash :: name) st w = Done (0, st', w)
  /\ st_ino st' = Z.of_nat (length pre) + 2.
Proof.
  intros Hc Hn Hn32 Hnames Hpre Hne Hs Hnul Hst. split.
  - unfold far_getattr.
    rewrite (root_child_lookup w offsetof_rootdir n name pre post
               Hc Hn Hnames Hpre Hne Hs Hnul).
    cbn [bind fst]. change (child_at offsetof_rootdir (Z.of_nat (length pre)))
      with (table_entry (Z.of_nat (length pre))).
    rewrite Hst. reflexivity.
  - pose proof (child_names_length w root _ 0 _ Hnames) as Hlen.
    rewrite length_app in Hlen. cbn [length] in Hlen.
    rewrite (far_fill_stat_ino w _ st' Hst). unfold table_entry.
    rewrite entry_index_table. apply wrap64_small. lia.
Qed.

Lemma getattr_root_child_witness :
  exists st',
    far_getattr (slash :: bytes_of "sub") stat_zero hello_world
    = Done (0, st', hello_world)
    /\ st_ino st' = 1 + 2.
Proof.
  eexists.
  refine (getattr_root_child hello_world 2 (bytes_of "sub")
            [bytes_of "hello.txt"] [] stat_zero _
            eq_refl eq_refl _ eq_refl _ _ _ _ eq_refl);
    vm_compute; intuition congruence.
Defined.

(** ** Directory handles *)

Lemma nth_error_set_nth_eq {A : Type} (l : list A) : forall n x,
  (n < length l)%nat -> nth_error (set_nth l n x) n = Some x.
Proof.
  induction l as [|y l IH]; intros n x H; simpl in H; [lia|].
  destruct n as [|n]; simpl; [reflexivity|]. apply IH. lia.
Qed.

Lemma nth_error_set_nth_neq {A : Type} (l : list A) : forall n m x,
  n <> m -> nth_error (set_nth l n x) m = nth_error l m.
Proof.
  induction l as [|y l IH]; intros n m x H; simpl; [reflexivity|].
  destruct n as [|n]; destruct m as [|m]; simpl; try reflexivity;
    try contradiction.
  apply IH. congruence.
Qed.

(** What [far_opendir] does with the heap.  On a path that resolves to a
    directory, with room on the heap, it returns 0 and a handle that was
    not live before and now holds the entry and the parent reported by the
    resolver; the handles that were live stay as they are.  Without room
    it returns [-ENOMEM], on a path that does not resolve [-ENOENT], and
    in both cases it changes nothing. *)
Theorem far_opendir_handle w path fi :
  (forall e p,
      far_traverse_path w path = Done (Some e, p) ->
      far_type w e = Done FAR_DIR_TYPE ->
      (length (heap w) < heap_limit w)%nat ->
      exists w',
        far_opendir path fi w
        = Done (0, {| fi_flags := fi_flags fi;
                      fh := fh_dir (length (heap w));
                      keep_cache := keep_cache fi |}, w')
        /\ deref_dir w (fh_dir (length (heap w))) = Fault
        /\ deref_dir w' (fh_dir (length (heap w)))
           = Done {| parent := p; entry := e |}
        /\ (forall a, (a < length (heap w))%nat ->
              deref_dir w' (fh_dir a) = deref_dir w (fh_dir a)))
  /\ (forall e p,
        far_traverse_path w path = Done (Some e, p) ->
        far_type w e = Done FAR_DIR_TYPE ->
        (heap_limit w <= length (heap w))%nat ->
        far_opendir path fi w = Done (- ENOMEM, fi, w))
  /\ (forall p,
        far_traverse_path w path = Done (None, p) ->
        far_opendir path fi w = Done (- ENOENT, fi, w)).
Proof.
  split; [|split].
  - intros e p H Ht Hroom.
    exists (set_heap w (heap w ++ [Some {| parent := p; entry := e |}])).
    split; [|split; [|split]].
    + unfold far_opendir. rewrite H. cbn [bind]. rewrite Ht. cbn [bind].
      change (negb (FAR_DIR_TYPE =? FAR_DIR_TYPE)) with false. cbv iota.
      unfold far_dir_new.
      replace (length (heap w) <? heap_limit w)%nat with true
        by (symmetry; apply Nat.ltb_lt; exact Hroom).
      reflexivity.
    + unfold deref_dir.
      replace (nth_error (heap w) (length (heap w))) with (@None (option far_dir_t))
        by (symmetry; apply nth_error_None; lia).
      reflexivity.
    + unfold deref_dir, set_heap. cbn [heap].
      rewrite nth_error_app2 by lia. rewrite Nat.sub_diag. reflexivity.
    + intros a Ha. unfold deref_dir, set_heap. cbn [heap].
      rewrite nth_error_app1 by exact Ha. reflexivity.
  - intros e p H Ht Hfull.
    unfold far_opendir. rewrite H. cbn [bind]. rewrite Ht. cbn [bind].
    change (negb (FAR_DIR_TYPE =? FAR_DIR_TYPE)) with false. cbv iota.
    unfold far_dir_new.
    replace (length (heap w) <? heap_limit w)%nat with false
      by (symmetry; apply Nat.ltb_ge; exact Hfull).
    reflexivity.
  - intros p H. unfold far_opendir. rewrite H. reflexivity.
Qed.

Lemma far_opendir_handle_witness :
  exists w',
    far_opendir (bytes_of "/d") (fi_of_flags O_RDONLY) tree_world
    = Done (0, {| fi_flags := O_RDONLY; fh := fh_dir 0; keep_cache := 0 |},
            w')
    /\ deref_dir tree_world (fh_dir 0) = Fault
    /\ deref_dir w' (fh_dir 0) = Done {| parent := root; entry := mapped 20 |}
    /\ (forall a, (a < 0)%nat ->
          deref_dir w' (fh_dir a) = deref_dir tree_world (fh_dir a)).
Proof.
  refine (proj1 (far_opendir_handle tree_world (bytes_of "/d")
                   (fi_of_flags O_RDONLY)) (mapped 20) root _ _ _).
  - vm_compute. reflexivity.
  - vm_compute. reflexivity.
  - vm_compute. lia.
Defined.

(** What [far_releasedir] does with the heap.  Releasing a live handle
    returns 0; afterwards the handle is dead, so that listing through it
    or releasing it again is undefined ([Fault]), while every other handle
    is as it was. *)
Theorem far_releasedir_frees w fi a d :
  fh fi = fh_dir a ->
  nth_error (heap w) a = Some (Some d) ->
  exists w',
    far_releasedir fi w = Done (0, w')
    /\ deref_dir w' (fh_dir a) = Fault
    /\ far_releasedir fi w' = Fault
    /\ (forall Buf filler buffer offset,
          far_readdir Buf filler buffer offset fi w' = Fault)
    /\ (forall b, b <> a ->
          deref_dir w' (fh_dir b) = deref_dir w (fh_dir b))
    /\ archive_state w' = archive_state w.
Proof.
  intros Hfh Hlive.
  assert (Hlt : (a < length (heap w))%nat).
  { apply nth_error_Some. rewrite Hlive. discriminate. }
  exists (set_heap w (set_nth (heap w) a None)).
  assert (Hdead : nth_error (heap (set_heap w (set_nth (heap w) a None))) a
                  = Some None).
  { cbn [heap set_heap]. apply nth_error_set_nth_eq. exact Hlt. }
  split; [|split; [|split; [|split; [|split]]]].
  - unfold far_releasedir. rewrite Hfh, Hlive. reflexivity.
  - unfold deref_dir. rewrite Hdead. reflexivity.
  - unfold far_releasedir. rewrite Hfh, Hdead. reflexivity.
  - intros Buf filler buffer offset. unfold far_readdir.
    rewrite Hfh. unfold deref_dir. rewrite Hdead. reflexivity.
  - intros b Hb. unfold deref_dir. cbn [heap set_heap].
    rewrite nth_error_set_nth_neq by congruence. reflexivity.
  - reflexivity.
Qed.

Lemma far_releasedir_frees_witness :
  exists w',
    far_releasedir tree_dir_fi tree_dir_world = Done (0, w')
    /\ deref_dir w' (fh_dir 0) = Fault
    /\ far_releasedir tree_dir_fi w' = Fault
    /\ (forall Buf filler buffer offset,
          far_readdir Buf filler buffer offset tree_dir_fi w' = Fault)
    /\ (forall b, b <> 0%nat ->
          deref_dir w' (fh_dir b) = deref_dir tree_dir_world (fh_dir b))
    /\ archive_state w' = archive_state tree_dir_world.
Proof.
  exact (far_releasedir_frees tree_dir_world tree_dir_fi 0
           {| parent := root; entry := mapped 20 |} eq_refl eq_refl).
Defined.

(** Opening a directory and releasing the handle again leaves every
    handle as it was before the two calls, and the archive too. *)
Theorem opendir_releasedir_round_trip w path fi fi' w' :
  far_opendir path fi w = Done (0, fi', w') ->
  exists w'',
    far_releasedir fi' w' = Done (0, w'')
    /\ (forall h, deref_dir w'' h = deref_dir w h)
    /\ archive_state w'' = archive_state w.
Proof.
  intros H. unfold far_opendir in H. inv_bind H.
  destruct a as [[e|] p]; [|discriminate].
  inv_bind H. destruct (negb _) in H; [discriminate|].
  unfold far_dir_new in H.
  destruct (length (heap w) <? heap_limit w)%nat; [|discriminate].
  injection H as <- <-.
  set (d := {| parent := p; entry := e |}).
  exists (set_heap w (set_nth (heap w ++ [Some d]) (length (heap w)) None)).
  split; [|split].
  - unfold far_releasedir. cbn [fh heap set_heap].
    rewrite nth_error_app2 by lia. rewrite Nat.sub_diag. reflexivity.
  - intros [| |b]; try reflexivity.
    unfold deref_dir. cbn [heap set_heap].
    destruct (Nat.eq_dec (length (heap w)) b) as [<-|Hne].
    + rewrite nth_error_set_nth_eq by (rewrite length_app; simpl; lia).
      replace (nth_error (heap w) (length (heap w)))
        with (@None (option far_dir_t))
        by (symmetry; apply nth_error_None; lia).
      reflexivity.
    + rewrite nth_error_set_nth_neq by exact Hne.
      destruct (Nat.lt_ge_cases b (length (heap w))) as [Hlt|Hge].
      * rewrite nth_error_app1 by exact Hlt. reflexivity.
      * replace (nth_error (heap w ++ [Some d]) b)
          with (@None (option far_dir_t))
          by (symmetry; apply nth_error_None; rewrite length_app;
              simpl; lia).
        replace (nth_error (heap w) b) with (@None (option far_dir_t))
          by (symmetry; apply nth_error_None; lia).
        reflexivity.
  - reflexivity.
Qed.

Lemma opendir_releasedir_round_trip_witness :
  exists w'',
    far_releasedir tree_dir_fi tree_dir_world = Done (0, w'')
    /\ (forall h, deref_dir w'' h = deref_dir tree_world h)
    /\ archive_state w'' = archive_state tree_world.
Proof.
  refine (opendir_releasedir_round_trip tree_world (bytes_of "/d")
            (fi_of_flags O_RDONLY) tree_dir_fi tree_dir_world _).
  vm_compute. reflexivity.
Defined.

(** ** An invariant of the heap and what it buys *)

Lemma readonly_ops_keep_state :
  (forall path st w r w', far_getattr path st w = Done (r, w') -> w' = w)
  /\ (forall path fi w r w', far_open path fi w = Done (r, w') -> w' = w)
  /\ (forall size offset fi w r w',
        far_read size offset fi w = Done (r, w') -> w' = w)
  /\ (forall Buf filler buffer offset fi w r w',
        far_readdir Buf filler buffer offset fi w = Done (r, w') -> w' = w).
Proof.
  repeat apply conj.
  - intros path st w r w' H. unfold far_getattr in H. inv_bind H.
    destruct (fst a).
    + inv_bind H. injection H as _ <-. reflexivity.
    + injection H as _ <-. reflexivity.
  - intros path fi w r w' H. unfold far_open in H. inv_bind H.
    destruct (fst a).
    + destruct (_ =? O_RDWR) in H; [injection H as _ <-; reflexivity|].
      destruct (_ =? O_WRONLY) in H; injection H as _ <-; reflexivity.
    + destruct (negb _) in H; injection H as _ <-; reflexivity.
  - intros size offset fi w r w' H. unfold far_read in H.
    destruct (offset <? 0); [injection H as _ <-; reflexivity|].
    destruct (fh fi); try discriminate.
    inv_bind H. destruct (offset >=? a); [injection H as _ <-; reflexivity|].
    inv_bind H. inv_bind H. injection H as _ <-. reflexivity.
  - intros Buf filler buffer offset fi w r w' H. unfold far_readdir in H.
    inv_bind H. inv_bind H. destruct a0 as [[b0 full0] offset0].
    destruct full0; [injection H as _ <-; reflexivity|].
    inv_bind H. destruct a0 as [[b1 full1] offset1].
    destruct full1; [injection H as _ <-; reflexivity|].
    inv_bind H. inv_bind H. injection H as _ <-. reflexivity.
Qed.

(** Every live directory handle refers to a directory: this holds when
    [main] hands over to the dispatch loop, and each of the six
    operations keeps it. *)
Theorem handles_are_directories_invariant :
  (forall image atime mtime ctime uid gid limit w,
      main image atime mtime ctime uid gid limit = Done (Some w) ->
      handles_are_directories w)
  /\ (forall path fi w r w',
        handles_are_directories w ->
        far_opendir path fi w = Done (r, w') -> handles_are_directories w')
  /\ (forall fi w r w',
        handles_are_directories w ->
        far_releasedir fi w = Done (r, w') -> handles_are_directories w')
  /\ (forall path st w r w',
        handles_are_directories w ->
        far_getattr path st w = Done (r, w') -> handles_are_directories w')
  /\ (forall path fi w r w',
        handles_are_directories w ->
        far_open path fi w = Done (r, w') -> handles_are_directories w')
  /\ (forall size offset fi w r w',
        handles_are_directories w ->
        far_read size offset fi w = Done (r, w') ->
        handles_are_directories w')
  /\ (forall Buf filler buffer offset fi w r w',
        handles_are_directories w ->
        far_readdir Buf filler buffer offset fi w = Done (r, w') ->
        handles_are_directories w').
Proof.
  destruct readonly_ops_keep_state as (Hg & Ho & Hr & Hd).
  split; [|split; [|split; [|split; [|split; [|split]]]]].
  - intros image atime mtime ctime uid gid limit w H.
    destruct (main_started image atime mtime ctime uid gid limit w H)
      as (_ & Hheap & _).
    intros a d Ha. rewrite Hheap in Ha. destruct a; discriminate.
  - intros path fi w r w' Hinv H. unfold far_opendir in H. inv_bind H.
    destruct a as [[e|] p].
    + inv_bind H. destruct (negb (a =? FAR_DIR_TYPE)) eqn:E.
      * injection H as _ <-. exact Hinv.
      * apply negb_false_iff, Z.eqb_eq in E. subst a.
        unfold far_dir_new in H.
        destruct (length (heap w) <? heap_limit w)%nat.
        -- injection H as _ <-. intros b d Hb. cbn [heap set_heap] in Hb.
           destruct (Nat.lt_ge_cases b (length (heap w))) as [Hlt|Hge].
           ++ rewrite nth_error_app1 in Hb by exact Hlt.
              exact (Hinv b d Hb).
           ++ rewrite nth_error_app2 in Hb by exact Hge.
              destruct (b - length (heap w))%nat as [|k].
              ** injection Hb as <-. exact Ha0.
              ** destruct k; discriminate.
        -- injection H as _ <-. exact Hinv.
    + injection H as _ <-. exact Hinv.
  - intros fi w r w' Hinv H. unfold far_releasedir in H.
    destruct (fh fi) as [| |a]; try discriminate.
    + injection H as _ <-. exact Hinv.
    + destruct (nth_error (heap w) a) as [[d0|]|] eqn:Ea; try discriminate.
      injection H as _ <-. intros b d Hb. cbn [heap set_heap] in Hb.
      destruct (Nat.eq_dec a b) as [<-|Hne].
      * rewrite nth_error_set_nth_eq in Hb; [discriminate|].
        apply nth_error_Some. rewrite Ea. discriminate.
      * rewrite nth_error_set_nth_neq in Hb by exact Hne.
        exact (Hinv b d Hb).
  - intros path st w r w' Hinv H. rewrite (Hg _ _ _ _ _ H). exact Hinv.
  - intros path fi w r w' Hinv H. rewrite (Ho _ _ _ _ _ H). exact Hinv.
  - intros size offset fi w r w' Hinv H. rewrite (Hr _ _ _ _ _ _ H).
    exact Hinv.
  - intros Buf filler buffer offset fi w r w' Hinv H.
    rewrite (Hd _ _ _ _ _ _ _ _ H). exact Hinv.
Qed.

Lemma handles_are_directories_invariant_witness :
  handles_are_directories hello_world
  /\ handles_are_directories tree_dir_world.
Proof.
  pose proof (proj1 handles_are_directories_invariant
                hello_image 10 20 30 1000 1000 8%nat hello_world eq_refl)
    as Hh.
  pose proof (proj1 handles_are_directories_invariant
                tree_image 10 20 30 1000 1000 8%nat tree_world eq_refl)
    as Ht.
  split; [exact Hh|].
  exact (proj1 (proj2 handles_are_directories_invariant)
           (bytes_of "/d") (fi_of_flags O_RDONLY) tree_world
           (0, tree_dir_fi) tree_dir_world Ht eq_refl).
Defined.

Lemma read_c_str_no_abort mem : read_c_str mem <> Abort.
Proof.
  induction mem as [|m mem IH]; simpl; [discriminate|].
  destruct (Byte.eqb m NUL); [discriminate|].
  apply bind_no_abort; [exact IH|]. discriminate.
Qed.

Lemma readdir_loop_no_abort (Buf : Type)
    (filler : Buf -> list byte -> stat -> Z -> Buf * bool) w e k :
  far_type w e = Done FAR_DIR_TYPE ->
  forall off offset buffer,
    readdir_loop Buf filler w e off k offset buffer <> Abort.
Proof.
  intros Hd. induction k as [|k IH]; intros off offset buffer; simpl;
    [discriminate|].
  destruct (off =? offset); [|apply IH].
  apply bind_no_abort; [apply far_children_no_abort; exact Hd|].
  intros c _.
  apply bind_no_abort; [apply far_fill_stat_no_abort|]. intros st _.
  apply bind_no_abort; [apply far_name_no_abort|]. intros name _.
  apply bind_no_abort; [apply read_c_str_no_abort|]. intros s _.
  destruct (filler buffer s st (offset + 1)) as [b full].
  destruct full; [discriminate|apply IH].
Qed.

(** The process can abort in the walk along a path only.  [far_read] and
    [far_releasedir] never abort; [far_readdir] does not abort while every
    live handle refers to a directory; [far_getattr], [far_open] and
    [far_opendir] abort only if the resolution of their path does. *)
Theorem abort_only_in_path_walk :
  (forall size offset fi w, far_read size offset fi w <> Abort)
  /\ (forall fi w, far_releasedir fi w <> Abort)
  /\ (forall Buf filler buffer offset fi w,
        handles_are_directories w ->
        far_readdir Buf filler buffer offset fi w <> Abort)
  /\ (forall path st w,
        far_getattr path st w = Abort -> far_traverse_path w path = Abort)
  /\ (forall path fi w,
        far_open path fi w = Abort -> far_traverse_path w path = Abort)
  /\ (forall path fi w,
        far_opendir path fi w = Abort -> far_traverse_path w path = Abort).
Proof.
  split; [|split; [|split; [|split; [|split]]]].
  - intros size offset fi w. unfold far_read.
    destruct (offset <? 0); [discriminate|].
    destruct (fh fi); try discriminate.
    apply bind_no_abort; [apply far_datasize_no_abort|]. intros dsz _.
    destruct (offset >=? dsz); [discriminate|].
    apply bind_no_abort; [apply far_data_no_abort|]. intros d _.
    apply bind_no_abort; [|discriminate].
    unfold load_bytes. destruct (_ <=? 0); [discriminate|].
    destruct (_ && _); discriminate.
  - intros fi w. unfold far_releasedir.
    destruct (fh fi); try discriminate.
    destruct (nth_error (heap w) addr) as [[d|]|]; discriminate.
  - intros Buf filler buffer offset fi w Hinv. unfold far_readdir.
    destruct (deref_dir w (fh fi)) as [d| |] eqn:Ed;
      [|unfold deref_dir in Ed; destruct (fh fi);
        try destruct (nth_error (heap w) addr) as [[d|]|]; discriminate
       |discriminate].
    assert (Hdir : far_type w (entry d) = Done FAR_DIR_TYPE).
    { unfold deref_dir in Ed. destruct (fh fi) as [| |a]; try discriminate.
      destruct (nth_error (heap w) a) as [[d'|]|] eqn:Ea; try discriminate.
      injection Ed as <-. exact (Hinv a d' Ea). }
    cbn [bind].
    apply bind_no_abort.
    { destruct (offset =? 0); [|discriminate].
      apply bind_no_abort; [apply far_fill_stat_no_abort|].
      intros st _. destruct (filler buffer dot st (offset + 1)).
      discriminate. }
    intros [[b0 full0] offset0] _. destruct full0; [discriminate|].
    apply bind_no_abort.
    { destruct (offset0 =? 1); [|discriminate].
      apply bind_no_abort; [apply far_fill_stat_no_abort|].
      intros st _. destruct (filler b0 dotdot st (offset0 + 1)).
      discriminate. }
    intros [[b1 full1] offset1] _. destruct full1; [discriminate|].
    apply bind_no_abort; [apply far_datasize_no_abort|]. intros n _.
    apply bind_no_abort; [apply readdir_loop_no_abort; exact Hdir|].
    discriminate.
  - intros path st w H. unfold far_getattr in H.
    destruct (far_traverse_path w path) as [r| |]; [|reflexivity|discriminate].
    exfalso. cbn [bind] in H. destruct (fst r); [|discriminate].
    revert H. apply bind_no_abort; [apply far_fill_stat_no_abort|].
    discriminate.
  - intros path fi w H. unfold far_open in H.
    destruct (far_traverse_path w path) as [r| |]; [|reflexivity|discriminate].
    exfalso. cbn [bind] in H. destruct (fst r).
    + destruct (_ =? O_RDWR) in H; [discriminate|].
      destruct (_ =? O_WRONLY) in H; discriminate.
    + destruct (negb _) in H; discriminate.
  - intros path fi w H. unfold far_opendir in H.
    destruct (far_traverse_path w path) as [r| |]; [|reflexivity|discriminate].
    exfalso. cbn [bind] in H. destruct r as [[e|] p]; [|discriminate].
    revert H. apply bind_no_abort; [apply far_type_no_abort|].
    intros t _. destruct (negb _); [discriminate|].
    destruct (far_dir_new p e w) as [[a|] w']; discriminate.
Qed.

Lemma abort_only_in_path_walk_witness :
  far_traverse_path hello_world (bytes_of "/hello.txt/x") = Abort
  /\ far_readdir (list dirent * nat) recording_filler ([], 9%nat) 0
       tree_dir_fi tree_dir_world <> Abort.
Proof.
  split.
  - refine (proj1 (proj2 (proj2 (proj2 abort_only_in_path_walk)))
              (bytes_of "/hello.txt/x") stat_zero hello_world _).
    vm_compute. reflexivity.
  - refine (proj1 (proj2 (proj2 abort_only_in_path_walk))
              (list dirent * nat)%type recording_filler ([], 9%nat) 0
              tree_dir_fi tree_dir_world _).
    intros a d Ha. destruct a as [|[|a]]; try discriminate.
    injection Ha as <-. reflexivity.
Defined.

(** ** Opening a directory and listing it *)

(** The readers look at the archive, not at the heap. *)
Lemma count_links_set_heap w h c k : forall i acc,
  count_links (set_heap w h) c i k acc = count_links w c i k acc.
Proof.
  induction k as [|k IH]; intros i acc; simpl; [reflexivity|].
  change (far_type (set_heap w h) (child_at c i))
    with (far_type w (child_at c i)).
  destruct (far_type w (child_at c i)); simpl; try reflexivity. apply IH.
Qed.

Lemma far_fill_stat_set_heap w h e :
  far_fill_stat (set_heap w h) e = far_fill_stat w e.
Proof.
  unfold far_fill_stat.
  change (far_type (set_heap w h) e) with (far_type w e).
  change (far_datasize (set_heap w h) e) with (far_datasize w e).
  change (far_children (set_heap w h) e) with (far_children w e).
  destruct (far_type w e) as [t| |]; try reflexivity. cbn [bind].
  destruct (t =? FAR_DIR_TYPE); [|reflexivity].
  destruct (far_datasize w e) as [n| |]; try reflexivity. cbn [bind].
  destruct (far_children w e) as [c| |]; try reflexivity. cbn [bind].
  rewrite count_links_set_heap. reflexivity.
Qed.

Lemma child_listing_set_heap w h e k : forall i,
  child_listing (set_heap w h) e i k = child_listing w e i k.
Proof.
  induction k as [|k IH]; intros i; simpl; [reflexivity|].
  change (far_children (set_heap w h) e) with (far_children w e).
  destruct (far_children w e) as [c| |]; try reflexivity. cbn [bind].
  rewrite far_fill_stat_set_heap.
  destruct (far_fill_stat w (child_at c i)) as [st| |]; try reflexivity.
  cbn [bind].
  change (far_name (set_heap w h) (child_at c i))
    with (far_name w (child_at c i)).
  destruct (far_name w (child_at c i)) as [name| |]; try reflexivity.
  cbn [bind].
  change (mem_from (set_heap w h) name) with (mem_from w name).
  rewrite IH. reflexivity.
Qed.

(** After a successful [far_opendir], listing through the new handle in
    chunks of any capacities gives [.] with the attributes of the
    directory that the path resolved to, [..] with those of the parent the
    resolver reported, and the children in stored order. *)
Theorem opendir_then_list w path fi fi' w' e p st_self st_parent n kids :
  far_opendir path fi w = Done (0, fi', w') ->
  far_traverse_path w path = Done (Some e, p) ->
  far_fill_stat w e = Done st_self ->
  far_fill_stat w p = Done st_parent ->
  far_datasize w e = Done n ->
  child_listing w e 0 (Z.to_nat n) = Done kids ->
  forall caps,
    (2 + length kids <= list_sum caps)%nat ->
    list_directory w' fi' caps 0
    = Done (with_cursors ((dot, st_self) :: (dotdot, st_parent) :: kids) 0).
Proof.
  intros H Hp Hs Hpar Hn Hk caps Hcaps.
  unfold far_opendir in H. rewrite Hp in H. cbn [bind] in H.
  inv_bind H. destruct (negb _) in H; [discriminate|].
  unfold far_dir_new in H.
  destruct (length (heap w) <? heap_limit w)%nat; [|discriminate].
  injection H as <- <-.
  set (d := {| parent := p; entry := e |}).
  set (w' := set_heap w (heap w ++ [Some d])).
  assert (Hd : deref_dir w' (fh_dir (length (heap w))) = Done d).
  { unfold deref_dir, w'. cbn [heap set_heap].
    rewrite nth_error_app2 by lia. rewrite Nat.sub_diag. reflexivity. }
  assert (Hs' : far_fill_stat w' (entry d) = Done st_self)
    by (unfold w'; rewrite far_fill_stat_set_heap; exact Hs).
  assert (Hpar' : far_fill_stat w' (parent d) = Done st_parent)
    by (unfold w'; rewrite far_fill_stat_set_heap; exact Hpar).
  assert (Hk' : child_listing w' (entry d) 0 (Z.to_nat n) = Done kids)
    by (unfold w'; rewrite child_listing_set_heap; exact Hk).
  rewrite (list_directory_from w'
             {| fi_flags := fi_flags fi;
                fh := fh_dir (length (heap w));
                keep_cache := keep_cache fi |}
             d st_self st_parent n kids Hd Hs' Hpar' Hn Hk' caps 0) by lia.
  change (Z.to_nat 0) with 0%nat. cbn [skipn].
  rewrite firstn_all2 by (cbn [length]; lia). reflexivity.
Qed.

Lemma opendir_then_list_witness :
  exists got,
    list_directory tree_dir_world tree_dir_fi [2; 2; 2]%nat 0 = Done got
    /\ map d_name got
       = [bytes_of "."; bytes_of ".."; bytes_of "d1"; bytes_of "f1";
          bytes_of "d2"].
Proof.
  eexists. split.
  - refine (opendir_then_list tree_world (bytes_of "/d")
              (fi_of_flags O_RDONLY) tree_dir_fi tree_dir_world
              (mapped 20) root _ _ 3 _
              eq_refl eq_refl eq_refl eq_refl eq_refl eq_refl
              [2; 2; 2]%nat _).
    vm_compute. lia.
  - reflexivity.
Defined.

Lemma readdir_loop_before (Buf : Type)
    (filler : Buf -> list byte -> stat -> Z -> Buf * bool) w e k :
  forall off offset buffer,
    offset < off ->
    readdir_loop Buf filler w e off k offset buffer = Done buffer.
Proof.
  induction k as [|k IH]; intros off offset buffer H; simpl.
  - reflexivity.
  - replace (off =? offset) with false by (symmetry; apply Z.eqb_neq; lia).
    apply IH. lia.
Qed.

(** A negative cursor lists nothing: [far_readdir] returns 0 and does not
    call the filler. *)
Theorem readdir_negative_cursor w fi d n :
  deref_dir w (fh fi) = Done d ->
  far_datasize w (entry d) = Done n ->
  forall Buf filler buffer offset,
    offset < 0 ->
    far_readdir Buf filler buffer offset fi w = Done (0, buffer, w).
Proof.
  intros Hd Hn Buf filler buffer offset Hneg.
  unfold far_readdir. rewrite Hd. cbn [bind].
  replace (offset =? 0) with false by (symmetry; apply Z.eqb_neq; lia).
  cbn [bind].
  replace (offset =? 1) with false by (symmetry; apply Z.eqb_neq; lia).
  cbn [bind]. rewrite Hn. cbn [bind].
  rewrite readdir_loop_before by lia. reflexivity.
Qed.

Lemma readdir_negative_cursor_witness :
  far_readdir (list dirent * nat) recording_filler ([], 4%nat) (-1)
    tree_dir_fi tree_dir_world
  = Done (0, ([], 4%nat), tree_dir_world).
Proof.
  refine (readdir_negative_cursor tree_dir_world tree_dir_fi
            {| parent := root; entry := mapped 20 |} 3 eq_refl eq_refl
            (list dirent * nat)%type recording_filler ([], 4%nat) (-1) _).
  reflexivity.
Defined.

(** ** Reading a file piece by piece *)

Lemma far_read_within w fi e sz d off n :
  fh fi = fh_entry e ->
  far_datasize w e = Done sz -> far_data w e = Done d ->
  sz < 2 ^ 32 -> 0 <= d -> d + sz <= mapping_size w ->
  0 <= off -> 0 <= n < 2 ^ 31 -> off + n <= sz ->
  far_read n off fi w = Done (n, image_bytes w (d + off) n, w).
Proof.
  intros Hfh Hsz Hd Hsz32 Hd0 Hin Hoff Hn Hle.
  destruct (Z.eq_dec n 0) as [->|Hnz].
  - destruct (Z.lt_ge_cases off sz) as [Hlt|Hge].
    + rewrite (far_read_range w fi e sz d 0 off) by (auto; lia).
      replace (Z.min 0 (sz - off)) with 0 by lia. reflexivity.
    + rewrite (far_read_eof w fi e sz 0 off) by (auto; lia). reflexivity.
  - rewrite (far_read_range w fi e sz d n off) by (auto; lia).
    replace (Z.min n (sz - off)) with n by lia. reflexivity.
Qed.

Lemma image_bytes_app w a n m :
  0 <= a -> 0 <= n -> 0 <= m ->
  image_bytes w a (n + m) = image_bytes w a n ++ image_bytes w (a + n) m.
Proof.
  intros Ha Hn Hm. unfold image_bytes.
  rewrite Z2Nat.inj_add by assumption. rewrite firstn_plus.
  rewrite skipn_skipn. rewrite (Z2Nat.inj_add a n) by assumption.
  rewrite (Nat.add_comm (Z.to_nat n)). reflexivity.
Qed.

(** Two reads that follow each other inside a file and whose lengths
    together stay below [2^31], so that they fit the [int] that
    [far_read] returns, give, put together, what one read of both lengths
    gives: the bytes of the payload. *)
Theorem far_read_chunks w fi e sz d off n m :
  fh fi = fh_entry e ->
  far_datasize w e = Done sz -> far_data w e = Done d ->
  sz < 2 ^ 32 -> 0 <= d -> d + sz <= mapping_size w ->
  0 <= off -> 0 <= n -> 0 <= m -> n + m < 2 ^ 31 -> off + n + m <= sz ->
  exists b1 b2,
    far_read n off fi w = Done (n, b1, w)
    /\ far_read m (off + n) fi w = Done (m, b2, w)
    /\ far_read (n + m) off fi w = Done (n + m, b1 ++ b2, w)
    /\ b1 ++ b2 = image_bytes w (d + off) (n + m).
Proof.
  intros Hfh Hsz Hd Hsz32 Hd0 Hin Hoff Hn Hm Hint Hle.
  exists (image_bytes w (d + off) n), (image_bytes w (d + off + n) m).
  rewrite <- image_bytes_app by lia.
  repeat split.
  - apply (far_read_within w fi e sz d off n); auto; lia.
  - replace (d + off + n) with (d + (off + n)) by lia.
    apply (far_read_within w fi e sz d (off + n) m); auto; lia.
  - apply (far_read_within w fi e sz d off (n + m)); auto; lia.
Qed.

Lemma far_read_chunks_witness :
  exists b1 b2,
    far_read 1 0 (fi_of_entry (mapped 20)) hello_world
    = Done (1, b1, hello_world)
    /\ far_read 3 (0 + 1) (fi_of_entry (mapped 20)) hello_world
       = Done (3, b2, hello_world)
    /\ far_read (1 + 3) 0 (fi_of_entry (mapped 20)) hello_world
       = Done (1 + 3, b1 ++ b2, hello_world)
    /\ b1 ++ b2 = image_bytes hello_world (66 + 0) (1 + 3).
Proof.
  refine (far_read_chunks hello_world (fi_of_entry (mapped 20)) (mapped 20)
            4 66 0 1 3 eq_refl eq_refl eq_refl _ _ _ _ _ _ _ _);
    vm_compute; intuition congruence.
Defined.

(** ** Decoding the image *)

Lemma load32_at w a :
  0 <= a -> a + 4 <= mapping_size w ->
  load32 w a
  = Done (le_combine (firstn 4 (skipn (Z.to_nat a) (far_mapping w)))).
Proof.
  intros Ha Hb. unfold load32.
  rewrite load_bytes_in_range by lia. reflexivity.
Qed.

Lemma load32_of_bytes w pre bs post :
  far_mapping w = pre ++ bs ++ post -> length bs = 4%nat ->
  load32 w (Z.of_nat (length pre)) = Done (le_combine bs).
Proof.
  intros Hm Hl. rewrite load32_at.
  - rewrite Nat2Z.id, Hm, skipn_app, skipn_all, Nat.sub_diag.
    cbn [skipn app]. rewrite firstn_app, <- Hl, firstn_all, Nat.sub_diag.
    cbn [firstn]. rewrite app_nil_r. reflexivity.
  - lia.
  - unfold mapping_size. rewrite Hm, !length_app. lia.
Qed.

Lemma le_combine_le32 z : 0 <= z < 2 ^ 32 -> le_combine (le32 z) = z.
Proof.
  intros H. unfold le32. rewrite le_combine_split.
  apply Z.mod_small. exact H.
Qed.

(** An entry record written in the layout of the format reads back
    through the accessors: the type is the low byte of the flags, the
    other three fields come back as written.  Here the record stands at
    offset [a] of the image. *)
Theorem entry_record_round_trip w a f n d s :
  holds_entry w a f n d s ->
  0 <= f < 2 ^ 32 -> 0 <= n < 2 ^ 32 ->
  0 <= d < 2 ^ 32 -> 0 <= s < 2 ^ 32 ->
  far_type w (mapped a) = Done (Z.land f 255)
  /\ far_name w (mapped a) = Done n
  /\ far_data w (mapped a) = Done d
  /\ far_datasize w (mapped a) = Done s.
Proof.
  intros (pre & post & Hm & <-) Hf Hn Hd Hs.
  unfold entry_record in Hm.
  assert (L : forall z, length (le32 z) = 4%nat)
    by (intros z; apply length_le_split).
  unfold far_type, far_name, far_data, far_datasize, entry_field,
    le32_to_cpu.
  repeat split.
  - rewrite Z.add_0_r.
    rewrite (load32_of_bytes w pre (le32 f)
               (le32 n ++ le32 d ++ le32 s ++ post))
      by (rewrite ?Hm, <- ?app_assoc; auto).
    cbn [bind]. rewrite le_combine_le32 by exact Hf. reflexivity.
  - replace (Z.of_nat (length pre) + 4)
      with (Z.of_nat (length (pre ++ le32 f)))
      by (rewrite length_app, L; lia).
    rewrite (load32_of_bytes w (pre ++ le32 f) (le32 n)
               (le32 d ++ le32 s ++ post))
      by (rewrite ?Hm, <- ?app_assoc; auto).
    cbn [bind]. rewrite le_combine_le32 by exact Hn. reflexivity.
  - replace (Z.of_nat (length pre) + 8)
      with (Z.of_nat (length (pre ++ le32 f ++ le32 n)))
      by (rewrite !length_app, !L; lia).
    rewrite (load32_of_bytes w (pre ++ le32 f ++ le32 n) (le32 d)
               (le32 s ++ post))
      by (rewrite ?Hm, <- ?app_assoc; auto).
    cbn [bind]. rewrite le_combine_le32 by exact Hd. reflexivity.
  - replace (Z.of_nat (length pre) + 12)
      with (Z.of_nat (length (pre ++ le32 f ++ le32 n ++ le32 d)))
      by (rewrite !length_app, !L; lia).
    rewrite (load32_of_bytes w (pre ++ le32 f ++ le32 n ++ le32 d) (le32 s)
               post)
      by (rewrite ?Hm, <- ?app_assoc; auto).
    cbn [bind]. rewrite le_combine_le32 by exact Hs. reflexivity.
Qed.

Lemma entry_record_round_trip_witness :
  far_type hello_world (mapped 36) = Done (Z.land FAR_DIR_TYPE 255)
  /\ far_name hello_world (mapped 36) = Done 62
  /\ far_data hello_world (mapped 36) = Done 70
  /\ far_datasize hello_world (mapped 36) = Done 0.
Proof.
  refine (entry_record_round_trip hello_world 36 FAR_DIR_TYPE 62 70 0
            _ _ _ _ _).
  - exists (header_record 2 14 2 ++ entry_record FAR_FILE_TYPE 52 66 4),
           (cstring "hello.txt" ++ cstring "sub" ++ bytes_of "abcd").
    split; vm_compute; reflexivity.
  - vm_compute. intuition congruence.
  - vm_compute. intuition congruence.
  - vm_compute. intuition congruence.
  - vm_compute. intuition congruence.
Defined.

Lemma le_combine_eq_iff bs bs' :
  length bs = length bs' ->
  (le_combine bs =? le_combine bs') = bytes_eqb bs bs'.
Proof.
  intros Hl. unfold bytes_eqb.
  destruct (list_eq_dec Byte.byte_eq_dec bs bs') as [->|Hne].
  - apply Z.eqb_refl.
  - apply Z.eqb_neq. intros E. apply Hne.
    exact (le_combine_inj bs bs' Hl E).
Qed.

(** [main] accepts exactly the images that start with the bytes
    [F A R \0] followed by a version of 0.  On such an image it enters
    the dispatch loop with the image mapped and the size of the dummy
    root set to the little-endian number at offset 16; on every other
    image of at least the size of a header it fails. *)
Theorem main_accepts_iff image atime mtime ctime uid gid limit :
  (20 <= length image)%nat ->
  (firstn 4 image = far_magic_bytes
   /\ firstn 4 (skipn 4 image) = version_0_bytes ->
   main image atime mtime ctime uid gid limit
   = Done (Some (set_root_size
                   (mapped_world image atime mtime ctime uid gid limit)
                   (le_combine (firstn 4 (skipn 16 image))))))
  /\ (~ (firstn 4 image = far_magic_bytes
         /\ firstn 4 (skipn 4 image) = version_0_bytes) ->
      main image atime mtime ctime uid gid limit = Done None).
Proof.
  intros Hlen. unfold main.
  set (w0 := mapped_world image atime mtime ctime uid gid limit).
  assert (Hsize : mapping_size w0 = Z.of_nat (length image)) by reflexivity.
  rewrite (load32_at w0 offsetof_magic)
    by (unfold offsetof_magic; lia).
  rewrite (load32_at w0 offsetof_version)
    by (unfold offsetof_version; lia).
  rewrite (load32_at w0 offsetof_rootentries)
    by (unfold offsetof_rootentries; lia).
  change (far_mapping w0) with image.
  change (Z.to_nat offsetof_magic) with 0%nat.
  change (Z.to_nat offsetof_version) with 4%nat.
  change (Z.to_nat offsetof_rootentries) with 16%nat.
  cbn [bind]. change (skipn 0 image) with image. unfold le32_to_cpu.
  change FAR_MAGIC with (le_combine far_magic_bytes).
  change 0 with (le_combine version_0_bytes) at 1 2.
  rewrite !le_combine_eq_iff
    by (rewrite length_firstn, ?length_skipn;
        unfold far_magic_bytes, version_0_bytes; cbn [length]; lia).
  unfold bytes_eqb.
  destruct (list_eq_dec Byte.byte_eq_dec (firstn 4 image) far_magic_bytes)
    as [Em|Em];
    destruct (list_eq_dec Byte.byte_eq_dec (firstn 4 (skipn 4 image))
                version_0_bytes) as [Ev|Ev];
    cbn [negb bind]; split; intros H; try reflexivity;
    solve [ destruct H; contradiction | exfalso; apply H; split; assumption ].
Qed.

Lemma main_accepts_iff_witness :
  main hello_image 10 20 30 1000 1000 8
  = Done (Some (set_root_size (mapped_world hello_image 10 20 30 1000 1000 8)
                  (le_combine (firstn 4 (skipn 16 hello_image))))).
Proof.
  refine (proj1 (main_accepts_iff hello_image 10 20 30 1000 1000 8%nat _) _).
  - vm_compute. lia.
  - split; vm_compute; reflexivity.
Defined.

(** ** The command line *)

(** [far_process_arg] over the arguments of the command line: the first
    non-option argument becomes [far_file] and is taken out of the
    arguments, every other argument is kept in its place; once [far_file]
    is set, no argument changes it. *)
Theorem process_args_takes_first_nonopt :
  (forall args f, process_args args (Some f) = (Some f, args))
  /\ (forall args, process_args args None = first_nonopt args).
Proof.
  assert (Hset : forall args f, process_args args (Some f) = (Some f, args)).
  { induction args as [|[key arg] args IH]; intros f; simpl.
    - reflexivity.
    - unfold far_process_arg.
      destruct (key =? FUSE_OPT_KEY_NONOPT); rewrite IH; reflexivity. }
  split; [exact Hset|].
  induction args as [|[key arg] args IH]; simpl.
  - reflexivity.
  - unfold far_process_arg. destruct (key =? FUSE_OPT_KEY_NONOPT).
    + rewrite Hset. reflexivity.
    + rewrite IH. destruct (first_nonopt args). reflexivity.
Qed.

(** ** Opening a file and reading it *)

(** A read-only open of a path that resolves to an entry of fewer than
    [2^31] bytes, followed by a read of the whole size from offset 0
    through the record that the open filled in, returns the payload of
    the entry as it stands in the image.  Neither call changes the process
    state. *)
Theorem open_then_read w path fi e p sz d :
  far_traverse_path w path = Done (Some e, p) ->
  accmode fi = O_RDONLY ->
  far_datasize w e = Done sz -> far_data w e = Done d ->
  0 <= sz < 2 ^ 31 -> 0 <= d -> d + sz <= mapping_size w ->
  exists fi',
    far_open path fi w = Done (0, fi', w)
    /\ far_read sz 0 fi' w = Done (sz, image_bytes w d sz, w).
Proof.
  intros Hp Hm Hsz Hd Hs Hd0 Hin.
  exists (opened fi e). split.
  - rewrite (far_open_found w path fi e p Hp), Hm. reflexivity.
  - replace d with (d + 0) at 1 by lia.
    apply (far_read_within w (opened fi e) e sz d 0 sz);
      try assumption; try reflexivity; lia.
Qed.

Lemma open_then_read_witness :
  exists fi',
    far_open (bytes_of "/hello.txt") (fi_of_flags O_RDONLY) hello_world
    = Done (0, fi', hello_world)
    /\ far_read 4 0 fi' hello_world
       = Done (4, image_bytes hello_world 66 4, hello_world).
Proof.
  refine (open_then_read hello_world (bytes_of "/hello.txt")
            (fi_of_flags O_RDONLY) (mapped 20) root 4 66
            _ eq_refl eq_refl eq_refl _ _ _);
    vm_compute; intuition congruence.
Defined.

(** ** Reads that the return type cannot report *)

(** A read inside an entry in full: the clamped length is converted to the
    [int] that [far_read] returns. *)
Lemma far_read_clamped w fi e sz d size offset :
  fh fi = fh_entry e ->
  far_datasize w e = Done sz -> far_data w e = Done d ->
  sz < 2 ^ 32 -> 0 <= d -> d + sz <= mapping_size w ->
  0 <= size -> offset + size < 2 ^ 64 ->
  0 <= offset < sz ->
  far_read size offset fi w
  = Done (to_int (Z.min size (sz - offset)),
          image_bytes w (d + offset) (Z.min size (sz - offset)), w).
Proof.
  intros Hfh Hsz Hd Hsz32 Hd0 Hin Hs0 Hsum Hoff.
  unfold far_read.
  replace (offset <? 0) with false by (symmetry; apply Z.ltb_ge; lia).
  rewrite Hfh, Hsz. cbn [bind].
  rewrite Z.geb_leb.
  replace (sz <=? offset) with false by (symmetry; apply Z.leb_gt; lia).
  rewrite Hd. cbn [bind].
  rewrite (wrap64_small (offset + size)) by lia.
  rewrite Z.gtb_ltb.
  destruct (sz <? offset + size) eqn:E.
  - apply Z.ltb_lt in E.
    replace (Z.min size (sz - offset)) with (sz - offset) by lia.
    rewrite wrap64_small by lia.
    rewrite load_bytes_in_range by lia. reflexivity.
  - apply Z.ltb_ge in E.
    replace (Z.min size (sz - offset)) with size by lia.
    rewrite load_bytes_in_range by lia. reflexivity.
Qed.

Lemma big_world_mapping :
  far_mapping big_world
  = (header_record 1 4 1 ++ le32 FAR_FILE_TYPE ++ le32 0 ++ le32 36)
    ++ le32 (2 ^ 31) ++ repeat Byte.x00 (Z.to_nat (2 ^ 31)).
Proof.
  unfold big_world, set_root_size, mapped_world, big_image, entry_record.
  cbn [far_mapping]. rewrite <- !app_assoc. reflexivity.
Qed.

Lemma big_world_size : mapping_size big_world = 36 + 2 ^ 31.
Proof.
  unfold mapping_size. rewrite big_world_mapping.
  set (pre := header_record 1 4 1 ++ le32 FAR_FILE_TYPE ++ le32 0
              ++ le32 36).
  set (bs := le32 (2 ^ 31)).
  rewrite !length_app, repeat_length.
  replace (length pre) with 32%nat by reflexivity.
  replace (length bs) with 4%nat by reflexivity.
  rewrite !Nat2Z.inj_add, Z2Nat.id by lia. lia.
Qed.

Lemma big_world_datasize : far_datasize big_world (mapped 20) = Done (2 ^ 31).
Proof.
  unfold far_datasize, entry_field, le32_to_cpu.
  change (20 + 12) with
    (Z.of_nat (length (header_record 1 4 1 ++ le32 FAR_FILE_TYPE
                       ++ le32 0 ++ le32 36))).
  rewrite (load32_of_bytes big_world _ (le32 (2 ^ 31))
             (repeat Byte.x00 (Z.to_nat (2 ^ 31))) big_world_mapping
             eq_refl).
  cbn [bind]. rewrite le_combine_le32 by lia. reflexivity.
Qed.

Lemma big_world_data : far_data big_world (mapped 20) = Done 36.
Proof.
  assert (Hm : far_mapping big_world
               = (header_record 1 4 1 ++ le32 FAR_FILE_TYPE ++ le32 0)
                 ++ le32 36
                 ++ (le32 (2 ^ 31) ++ repeat Byte.x00 (Z.to_nat (2 ^ 31))))
    by (rewrite big_world_mapping, <- !app_assoc; reflexivity).
  unfold far_data, entry_field, le32_to_cpu.
  change (20 + 8) with
    (Z.of_nat (length (header_record 1 4 1 ++ le32 FAR_FILE_TYPE
                       ++ le32 0))).
  rewrite (load32_of_bytes big_world
             (header_record 1 4 1 ++ le32 FAR_FILE_TYPE ++ le32 0)
             (le32 36)
             (le32 (2 ^ 31) ++ repeat Byte.x00 (Z.to_nat (2 ^ 31)))
             Hm eq_refl).
  reflexivity.
Qed.

Lemma big_world_type : far_type big_world (mapped 20) = Done FAR_FILE_TYPE.
Proof.
  assert (Hm : far_mapping big_world
               = header_record 1 4 1
                 ++ le32 FAR_FILE_TYPE
                 ++ (le32 0 ++ le32 36 ++ le32 (2 ^ 31)
                     ++ repeat Byte.x00 (Z.to_nat (2 ^ 31))))
    by (rewrite big_world_mapping, <- !app_assoc; reflexivity).
  unfold far_type, entry_field, le32_to_cpu.
  change (20 + 0) with (Z.of_nat (length (header_record 1 4 1))).
  rewrite (load32_of_bytes big_world (header_record 1 4 1)
             (le32 FAR_FILE_TYPE)
             (le32 0 ++ le32 36 ++ le32 (2 ^ 31)
              ++ repeat Byte.x00 (Z.to_nat (2 ^ 31)))
             Hm eq_refl).
  reflexivity.
Qed.

(** C3 (as stated, it fails): the length is not always
    [min(max_length, e.size - offset)].  On the file of [2^31] bytes a
    read of [2^31] bytes at offset 0 copies them and returns [-2^31], the
    length converted to [int]; and on the 4-byte file of the end-to-end
    scenario a read of [2^64 - 1] bytes at offset 1, where the claim has 3
    bytes, reads outside the mapping, the sum [offset + size] having
    wrapped around to 0. *)
Lemma far_read_counterexample :
  far_type big_world (mapped 20) = Done FAR_FILE_TYPE
  /\ far_datasize big_world (mapped 20) = Done (2 ^ 31)
  /\ far_read (2 ^ 31) 0 (fi_of_entry (mapped 20)) big_world
     = Done (- 2 ^ 31, image_bytes big_world 36 (2 ^ 31), big_world)
  /\ Z.min (2 ^ 31) (2 ^ 31 - 0) <> - 2 ^ 31
  /\ far_type hello_world (mapped 20) = Done FAR_FILE_TYPE
  /\ far_datasize hello_world (mapped 20) = Done 4
  /\ far_read (2 ^ 64 - 1) 1 (fi_of_entry (mapped 20)) hello_world = Fault.
Proof.
  split; [exact big_world_type|].
  split; [exact big_world_datasize|].
  split.
  { rewrite (far_read_clamped big_world (fi_of_entry (mapped 20)) (mapped 20)
               (2 ^ 31) 36 (2 ^ 31) 0 eq_refl big_world_datasize
               big_world_data)
      by (rewrite ?big_world_size; lia).
    replace (Z.min (2 ^ 31) (2 ^ 31 - 0)) with (2 ^ 31) by lia.
    replace (36 + 0) with 36 by lia.
    replace (to_int (2 ^ 31)) with (- 2 ^ 31) by (vm_compute; reflexivity).
    reflexivity. }
  split; [lia|].
  repeat split; vm_compute; reflexivity.
Qed.
